(** * compare.py: flattening two JSON documents and diffing the flat views

    A shallow embedding of [src/py3/compare.py]: [flatten_json],
    [compare_json] and [main], with the theorems that settle the
    properties stated about them.

    Conventions of the embedding.
    - A Python [str] is a [string] holding its UTF-8 bytes.  The byte-wise
      lexicographic order [String.le] coincides with Python's code-point
      order on [str], which is what [sorted] uses.
    - A Python [dict] read by [json.load] is an association list in
      insertion order whose keys are pairwise distinct ([wf]).
    - The flat dictionaries built by [flatten_json] are [gmap string scalar];
      [items.update(d)] is [d ∪ items] (stdpp's union prefers its left
      operand, [update] prefers the new entries).
    - Python [int] is [Z]; Python [float] is [spec_float], the IEEE 754
      values binary64 ranges over. *)

From Stdlib Require Import ZArith SpecFloat Ascii.
From stdpp Require Import base option list sorting strings pretty gmap fin_maps fin_sets.

(** ** Documents *)

(** What [json.load] can return at a leaf: [None], [bool], [int], [float],
    [str]. *)
Inductive scalar : Type :=
  | SNull
  | SBool (b : bool)
  | SInt (n : Z)
  | SFloat (f : spec_float)
  | SStr (s : string).

(** What [json.load] can return: a [dict], a [list] or a leaf.  The
    induction principle is [json_ind'] below. *)
#[local] Unset Elimination Schemes.
Inductive json : Type :=
  | JScalar (s : scalar)
  | JList (l : list json)
  | JDict (kvs : list (string * json)).
#[local] Set Elimination Schemes.

Global Instance spec_float_eq_dec : EqDecision spec_float.
Proof. solve_decision. Defined.

Global Instance scalar_eq_dec : EqDecision scalar.
Proof. solve_decision. Defined.

Global Instance scalar_inhabited : Inhabited scalar := populate SNull.

(** Induction over documents, with the hypotheses for the elements of a list
    and the values of a dict. *)
Section json_induction.
Variable P : json → Prop.
Hypothesis Hscalar : ∀ s, P (JScalar s).
Hypothesis Hlist : ∀ l, Forall P l → P (JList l).
Hypothesis Hdict : ∀ kvs, Forall (λ kv, P kv.2) kvs → P (JDict kvs).

Fixpoint json_ind' (d : json) : P d :=
  match d with
  | JScalar s => Hscalar s
  | JList l =>
      Hlist l ((fix go (l : list json) : Forall P l :=
                  match l with
                  | [] => Forall_nil_2 _
                  | x :: l' => Forall_cons_2 _ _ _ (json_ind' x) (go l')
                  end) l)
  | JDict kvs =>
      Hdict kvs ((fix go (kvs : list (string * json))
                    : Forall (λ kv, P kv.2) kvs :=
                    match kvs with
                    | [] => Forall_nil_2 _
                    | kv :: kvs' =>
                        Forall_cons_2 (λ kv, P kv.2) _ _
                          (json_ind' kv.2) (go kvs')
                    end) kvs)
  end.
End json_induction.

(** Key uniqueness of every mapping of the document, the invariant of a
    Python [dict]. *)
Fixpoint wf (d : json) : Prop :=
  match d with
  | JScalar _ => True
  | JList l => (fix go (l : list json) : Prop :=
                  match l with
                  | [] => True
                  | x :: l' => wf x ∧ go l'
                  end) l
  | JDict kvs => NoDup kvs.*1 ∧
                 (fix go (kvs : list (string * json)) : Prop :=
                    match kvs with
                    | [] => True
                    | kv :: kvs' => wf kv.2 ∧ go kvs'
                    end) kvs
  end.

(** Number of scalar leaves of a document. *)
Fixpoint leaf_count (d : json) : nat :=
  match d with
  | JScalar _ => 1
  | JList l => (fix go (l : list json) : nat :=
                  match l with
                  | [] => 0
                  | x :: l' => leaf_count x + go l'
                  end) l
  | JDict kvs => (fix go (kvs : list (string * json)) : nat :=
                    match kvs with
                    | [] => 0
                    | kv :: kvs' => leaf_count kv.2 + go kvs'
                    end) kvs
  end.

(** Nesting depth: a leaf has depth 0, a container one more than its deepest
    child. *)
Fixpoint depth (d : json) : nat :=
  match d with
  | JScalar _ => 0
  | JList l => S ((fix go (l : list json) : nat :=
                     match l with
                     | [] => 0
                     | x :: l' => depth x `max` go l'
                     end) l)
  | JDict kvs => S ((fix go (kvs : list (string * json)) : nat :=
                       match kvs with
                       | [] => 0
                       | kv :: kvs' => depth kv.2 `max` go kvs'
                       end) kvs)
  end.

(** ** [flatten_json] *)

(** Truth value of a [str]: the empty string is falsy. *)
Definition truthy (s : string) : bool :=
  match s with
  | EmptyString => false
  | String _ _ => true
  end.

(** [f"{parent_key}{sep}{k}" if parent_key else k] *)
Definition new_key (parent_key sep k : string) : string :=
  if truthy parent_key then parent_key +:+ sep +:+ k else k.

(** [str(i)] for a list index. *)
Definition str (i : nat) : string := pretty i.

Fixpoint flatten_json (data : json) (parent_key : string) (sep : string)
  : gmap string scalar :=
  match data with
  | JDict kvs =>
      (fix loop (kvs : list (string * json)) (items : gmap string scalar)
         : gmap string scalar :=
         match kvs with
         | [] => items
         | kv :: kvs' =>
             loop kvs'
               (flatten_json kv.2 (new_key parent_key sep kv.1) sep ∪ items)
         end) kvs ∅
  | JList l =>
      (fix loop (i : nat) (l : list json) (items : gmap string scalar)
         : gmap string scalar :=
         match l with
         | [] => items
         | v :: l' =>
             loop (S i) l'
               (flatten_json v (new_key parent_key sep (str i)) sep ∪ items)
         end) 0 l ∅
  | JScalar s => <[parent_key := s]> ∅
  end.

(** The two loops of [flatten_json], named. *)
Fixpoint flatten_dict (parent_key sep : string) (kvs : list (string * json))
    (items : gmap string scalar) : gmap string scalar :=
  match kvs with
  | [] => items
  | kv :: kvs' =>
      flatten_dict parent_key sep kvs'
        (flatten_json kv.2 (new_key parent_key sep kv.1) sep ∪ items)
  end.

Fixpoint flatten_list (parent_key sep : string) (i : nat) (l : list json)
    (items : gmap string scalar) : gmap string scalar :=
  match l with
  | [] => items
  | v :: l' =>
      flatten_list parent_key sep (S i) l'
        (flatten_json v (new_key parent_key sep (str i)) sep ∪ items)
  end.

(** ** The leaves as [flatten_json] meets them *)

(** The assignments [items[parent_key] = data] that a call of [flatten_json]
    performs, in the order of the traversal: one per scalar leaf, with the
    path it is recorded under. *)
Fixpoint leaves (data : json) (parent_key : string) (sep : string)
  : list (string * scalar) :=
  match data with
  | JDict kvs =>
      (fix loop (kvs : list (string * json)) : list (string * scalar) :=
         match kvs with
         | [] => []
         | kv :: kvs' =>
             leaves kv.2 (new_key parent_key sep kv.1) sep ++ loop kvs'
         end) kvs
  | JList l =>
      (fix loop (i : nat) (l : list json) : list (string * scalar) :=
         match l with
         | [] => []
         | v :: l' =>
             leaves v (new_key parent_key sep (str i)) sep ++ loop (S i) l'
         end) 0 l
  | JScalar s => [(parent_key, s)]
  end.

Fixpoint leaves_dict (parent_key sep : string) (kvs : list (string * json))
  : list (string * scalar) :=
  match kvs with
  | [] => []
  | kv :: kvs' =>
      leaves kv.2 (new_key parent_key sep kv.1) sep
        ++ leaves_dict parent_key sep kvs'
  end.

Fixpoint leaves_list (parent_key sep : string) (i : nat) (l : list json)
  : list (string * scalar) :=
  match l with
  | [] => []
  | v :: l' =>
      leaves v (new_key parent_key sep (str i)) sep
        ++ leaves_list parent_key sep (S i) l'
  end.

(** A dictionary built by assigning the pairs of [l] from left to right: a
    later pair overwrites an earlier one with the same key. *)
Definition assign_all (l : list (string * scalar)) : gmap string scalar :=
  list_to_map (reverse l).

(** ** Keys that cannot be confused with a path *)

Fixpoint has_char (c : ascii) (s : string) : bool :=
  match s with
  | EmptyString => false
  | String a s' => if decide (a = c) then true else has_char c s'
  end.

(** A key is plain when it is not empty and does not contain the separator
    character. *)
Definition plain_key (c : ascii) (k : string) : bool :=
  truthy k && negb (has_char c k).

(** Every mapping key of the document is plain. *)
Fixpoint keys_ok (c : ascii) (d : json) : bool :=
  match d with
  | JScalar _ => true
  | JList l => forallb (keys_ok c) l
  | JDict kvs => forallb (λ kv, plain_key c kv.1 && keys_ok c kv.2) kvs
  end.

(** What follows a key in a path: nothing, or the separator character [c]
    and more. *)
Definition tail (c : ascii) (x : string) : Prop :=
  x = EmptyString ∨ ∃ r, x = String c r.

(** The paths under the child reached by key [k] from [pk]. *)
Definition below (c : ascii) (pk k p : string) : Prop :=
  ∃ x, tail c x ∧ p = new_key pk (String c EmptyString) k +:+ x.

(** The paths of the leaves of [d] are pairwise distinct, and under a
    non-empty prefix each of them extends the prefix by a [tail]. *)
Definition distinct_below (c : ascii) (d : json) : Prop :=
  ∀ pk, NoDup (leaves d pk (String c EmptyString)).*1 ∧
        (pk ≠ EmptyString →
         ∀ p, p ∈ (leaves d pk (String c EmptyString)).*1 →
              ∃ x, tail c x ∧ p = pk +:+ x).

(** No leaf of the document is a NaN. *)
Fixpoint nan_free (d : json) : bool :=
  match d with
  | JScalar (SFloat S754_nan) => false
  | JScalar _ => true
  | JList l => forallb nan_free l
  | JDict kvs => forallb (λ kv, nan_free kv.2) kvs
  end.

(** ** Recursion depth of [flatten_json] *)

(** [flatten_json] with the depth of the call stack made explicit: every call
    takes one frame out of [frames], and [None] is the call that finds none
    left. *)
Fixpoint flatten_json_frames (frames : nat) (data : json)
    (parent_key : string) (sep : string) : option (gmap string scalar) :=
  match frames with
  | 0 => None
  | S frames' =>
      match data with
      | JDict kvs =>
          foldl (λ acc kv,
                   items ← acc;
                   sub ← flatten_json_frames frames' kv.2
                            (new_key parent_key sep kv.1) sep;
                   Some (sub ∪ items))
                (Some ∅) kvs
      | JList l =>
          fst <$>
          foldl (λ acc v,
                   '(items, i) ← acc;
                   sub ← flatten_json_frames frames' v
                            (new_key parent_key sep (str i)) sep;
                   Some (sub ∪ items, S i))
                (Some (∅, 0)) l
      | JScalar s => Some (<[parent_key := s]> ∅)
      end
  end.

(** ** Python's [==] on leaves *)

(** [bool] is a subclass of [int]: [True] is 1 and [False] is 0. *)
Definition as_int (a : scalar) : option Z :=
  match a with
  | SBool b => Some (if b then 1 else 0)%Z
  | SInt n => Some n
  | _ => None
  end.

(** An [int] and a [float] are equal when they denote the same number; the
    comparison is exact.  A finite float [S754_finite s m e] denotes
    [(-1)^s * m * 2^e]. *)
Definition int_eq_float (n : Z) (f : spec_float) : bool :=
  match f with
  | S754_zero _ => (n =? 0)%Z
  | S754_finite s m e =>
      let v := if s then Z.neg m else Z.pos m in
      if (0 <=? e)%Z then (n =? v * 2 ^ e)%Z else (n * 2 ^ (- e) =? v)%Z
  | S754_infinity _ | S754_nan => false
  end.

(** [a == b] for two leaves. *)
Definition py_eq (a b : scalar) : bool :=
  match a, b with
  | SNull, SNull => true
  | SNull, _ | _, SNull => false
  | SStr s, SStr t => bool_decide (s = t)
  | SStr _, _ | _, SStr _ => false
  | SFloat f, SFloat g => SFeqb f g
  | SFloat f, _ => from_option (λ n, int_eq_float n f) false (as_int b)
  | _, SFloat g => from_option (λ n, int_eq_float n g) false (as_int a)
  | _, _ =>
      match as_int a, as_int b with
      | Some m, Some n => (m =? n)%Z
      | _, _ => false
      end
  end.

(** [a != b] *)
Definition py_ne (a b : scalar) : bool := negb (py_eq a b).

(** The four JSON leaf types. *)
Inductive kind : Type := KNull | KBoolean | KNumber | KString.

Global Instance kind_eq_dec : EqDecision kind.
Proof. solve_decision. Defined.

Definition kind_of (a : scalar) : kind :=
  match a with
  | SNull => KNull
  | SBool _ => KBoolean
  | SInt _ | SFloat _ => KNumber
  | SStr _ => KString
  end.

(** The equality of the specification, following its words: type-sensitive
    (leaves of different JSON types are never equal); within one type the
    values are compared as the host compares them. *)
Definition typed_eq (a b : scalar) : bool :=
  bool_decide (kind_of a = kind_of b) && py_eq a b.

(** ** The comparison *)

(** [sorted(X)] for a set of strings. *)
Definition sorted (X : gset string) : list string :=
  merge_sort String.le (elements X).

(** One entry of [diffs], before its fields are named after the files. *)
Record diff : Type := Diff {
  key : string;
  value1 : scalar;
  value2 : scalar
}.

Record comparison : Type := Comparison {
  only1 : list string;
  only2 : list string;
  diffs : list diff;
  in_both : list string
}.

(** The loop over [sorted(keys1 & keys2)].  [None] is the [KeyError] of a
    subscript [flat1[key]] or [flat2[key]] whose key is missing. *)
Fixpoint compare_loop (flat1 flat2 : gmap string scalar) (keys : list string)
    (in_both : list string) (diffs : list diff)
  : option (list string * list diff) :=
  match keys with
  | [] => Some (in_both, diffs)
  | key :: keys' =>
      v1 ← flat1 !! key;
      v2 ← flat2 !! key;
      if py_ne v1 v2
      then compare_loop flat1 flat2 keys' in_both (diffs ++ [Diff key v1 v2])
      else compare_loop flat1 flat2 keys' (in_both ++ [key]) diffs
  end.

(** Lines 65 to 81 of [compare_json]: from the two flat views to the four
    lists. *)
Definition compare_flat (flat1 flat2 : gmap string scalar)
  : option comparison :=
  let keys1 := dom flat1 in
  let keys2 := dom flat2 in
  let only1 := sorted (keys1 ∖ keys2) in
  let only2 := sorted (keys2 ∖ keys1) in
  '(in_both, diffs) ← compare_loop flat1 flat2 (sorted (keys1 ∩ keys2)) [] [];
  Some (Comparison only1 only2 diffs in_both).

(** The paths of the entries of a [diffs] list. *)
Definition diff_keys (ds : list diff) : list string := key <$> ds.

(** ** The report *)

(** [os.path.basename]: what follows the last slash. *)
Fixpoint basename (p : string) : string :=
  match p with
  | EmptyString => EmptyString
  | String a p' =>
      if has_char "/" p' then basename p'
      else if decide (a = "/"%char) then p' else p
  end.

(** A value of the report: a list of paths, or the list of the
    [differing_values] dicts. *)
Inductive field : Type :=
  | Paths (l : list string)
  | Diffs (l : list (gmap string scalar)).

(** The dict literal [{'key': key, b1: flat1[key], b2: flat2[key]}]: a later
    item of a literal overwrites an earlier one with the same key. *)
Definition diff_dict (b1 b2 : string) (d : diff) : gmap string scalar :=
  <[b2 := value2 d]> (<[b1 := value1 d]> (<["key" := SStr (key d)]> ∅)).

(** The dict literal returned by [compare_json]. *)
Definition report_dict (b1 b2 : string) (c : comparison) : gmap string field :=
  <["in_both_identical" := Paths (in_both c)]>
    (<["differing_values" := Diffs (diff_dict b1 b2 <$> diffs c)]>
       (<["only_in_" +:+ b2 := Paths (only2 c)]>
          (<["only_in_" +:+ b1 := Paths (only1 c)]> ∅))).

(** ** Files, streams and exits *)

(** What a path of the file system refers to. *)
Inductive node : Type :=
  | File (content : string)
  | Dir.

(** The calls that reach the file system or the JSON parser. *)
Inductive event : Type :=
  | EvIsFile (path : string)
  | EvOpenRead (path : string)
  | EvLoad (text : string)
  | EvOpenWrite (path : string).

Record world : Type := World {
  fs : gmap string node;
  stdout : list string;
  stderr : list string;
  log : list event
}.

Inductive exn : Type :=
  | OSError (path : string)
  | JSONDecodeError
  | KeyError.

(** How a call ends: with a value, with [sys.exit(code)], or with an
    exception that nothing catches. *)
Inductive outcome (A : Type) : Type :=
  | Return (a : A)
  | Exit (code : Z)
  | Raise (e : exn).
Global Arguments Return {A} a.
Global Arguments Exit {A} code.
Global Arguments Raise {A} e.

Definition io (A : Type) : Type := world → outcome A * world.

Global Instance io_ret : MRet io := λ A a w, (Return a, w).

Global Instance io_bind : MBind io := λ A B f m w,
  match m w with
  | (Return a, w') => f a w'
  | (Exit code, w') => (Exit code, w')
  | (Raise e, w') => (Raise e, w')
  end.

Definition record (e : event) (w : world) : world :=
  World (fs w) (stdout w) (stderr w) (log w ++ [e]).

(** Whether a path refers to an existing regular file. *)
Definition is_regular (files : gmap string node) (path : string) : bool :=
  match files !! path with
  | Some (File _) => true
  | _ => false
  end.

(** [os.path.isfile(path)] *)
Definition isfile (path : string) : io bool := λ w,
  (Return (is_regular (fs w) path), record (EvIsFile path) w).

(** [print(msg, file=sys.stderr)] *)
Definition print_err (msg : string) : io unit := λ w,
  (Return (), World (fs w) (stdout w) (stderr w ++ [msg]) (log w)).

(** [print(msg)] *)
Definition print (msg : string) : io unit := λ w,
  (Return (), World (fs w) (stdout w ++ [msg]) (stderr w) (log w)).

(** [sys.exit(code)] *)
Definition sys_exit {A} (code : Z) : io A := λ w, (Exit code, w).

Definition raise {A} (e : exn) : io A := λ w, (Raise e, w).

(** [open(path, 'r')] and reading the file to its end. *)
Definition read_file (path : string) : io string := λ w,
  match fs w !! path with
  | Some (File content) => (Return content, record (EvOpenRead path) w)
  | _ => (Raise (OSError path), record (EvOpenRead path) w)
  end.

(** [open(path, 'w')] and writing [content]: the file is created or
    overwritten; a directory cannot be opened. *)
Definition write_file (path content : string) : io unit := λ w,
  match fs w !! path with
  | Some Dir => (Raise (OSError path), record (EvOpenWrite path) w)
  | _ => (Return (),
          record (EvOpenWrite path)
            (World (<[path := File content]> (fs w))
                   (stdout w) (stderr w) (log w)))
  end.

(** The diagnostic of [compare_json] for a missing file. *)
Definition missing_msg (path : string) : string :=
  "Error: cannot find JSON file at '" +:+ path +:+ "'".

Section program.
(** The parser and the printer of the [json] library: [loads] is [None] on
    text that is not JSON. *)
Variable loads : string → option json.
Variable dumps : gmap string field → string.

(** [json.load(f)] on the text of the file. *)
Definition json_load (text : string) : io json := λ w,
  match loads text with
  | Some data => (Return data, record (EvLoad text) w)
  | None => (Raise JSONDecodeError, record (EvLoad text) w)
  end.

(** The loop [for path in (file1, file2)] that validates the files. *)
Fixpoint validate (paths : list string) : io unit :=
  match paths with
  | [] => mret ()
  | path :: paths' =>
      ok ← isfile path;
      if negb ok
      then print_err (missing_msg path);;
           sys_exit 1
      else validate paths'
  end.

Definition compare_json (file1 file2 : string) : io (gmap string field) :=
  validate [file1; file2];;
  text1 ← read_file file1;
  data1 ← json_load text1;
  text2 ← read_file file2;
  data2 ← json_load text2;
  let flat1 := flatten_json data1 "" "." in
  let flat2 := flatten_json data2 "" "." in
  match compare_flat flat1 flat2 with
  | Some c => mret (report_dict (basename file1) (basename file2) c)
  | None => raise KeyError
  end.

(** [main], after [argparse] has read [file1], [file2] and [output]. *)
Definition main (file1 file2 output : string) : io unit :=
  result ← compare_json file1 file2;
  write_file output (dumps result);;
  print ("Differences (including value diffs) written to " +:+ output).
End program.

(** The two documents flattened as [compare_json] flattens them and
    compared. *)
Definition compare_docs (data1 data2 : json) : option comparison :=
  compare_flat (flatten_json data1 "" ".") (flatten_json data2 "" ".").

(** Whether the two flat views hold equal values at [k]. *)
Definition same_at (flat1 flat2 : gmap string scalar) (k : string) : bool :=
  match flat1 !! k, flat2 !! k with
  | Some v1, Some v2 => py_eq v1 v2
  | _, _ => false
  end.

(** The [diffs] entry for a key of both flat views. *)
Definition diff_at (flat1 flat2 : gmap string scalar) (k : string) : diff :=
  Diff k (flat1 !!! k) (flat2 !!! k).

(** ** Further notions *)

(** The mapping whose keys are the indices of a sequence. *)
Definition index_dict (l : list json) : list (string * json) :=
  imap (λ i v, (str i, v)) l.

(** A [diffs] entry and a comparison with the two sides exchanged. *)
Definition flip_diff (d : diff) : diff := Diff (key d) (value2 d) (value1 d).

Definition flip_comparison (c : comparison) : comparison :=
  Comparison (only2 c) (only1 c) (flip_diff <$> diffs c) (in_both c).

(** The line that [main] prints when it has written the report. *)
Definition written_msg (output : string) : string :=
  "Differences (including value diffs) written to " +:+ output.

(** ** Example documents *)

(** The document [{"a.b": 1, "a": {"b": 2}}]. *)
Definition dotted_key_doc : json :=
  JDict [("a.b", JScalar (SInt 1)); ("a", JDict [("b", JScalar (SInt 2))])].

(** The document [{"x": [1, {"y": null}], "z": "s"}]. *)
Definition plain_doc : json :=
  JDict [("x", JList [JScalar (SInt 1); JDict [("y", JScalar SNull)]]);
         ("z", JScalar (SStr "s"))].

(** The document [{"a": {}}]. *)
Definition empty_inside_doc : json := JDict [("a", JDict [])].

(** The document [{"a": NaN}], which [json.load] accepts. *)
Definition nan_doc : json := JDict [("a", JScalar (SFloat S754_nan))].

(** ** Example runs *)

(** A parser for the texts of the examples: ["1"], ["2"] and ["[1, 2]"]. *)
Definition toy_loads (text : string) : option json :=
  if decide (text = "1") then Some (JScalar (SInt 1))
  else if decide (text = "2") then Some (JScalar (SInt 2))
  else if decide (text = "[1, 2]")
       then Some (JList [JScalar (SInt 1); JScalar (SInt 2)])
  else None.

Definition toy_dumps (report : gmap string field) : string := "{...}".

(** A file system with [old/f.json] holding [1], [new/f.json] holding [2]
    and a directory [new]. *)
Definition toy_world : world :=
  World (<["old/f.json" := File "1"]>
           (<["new/f.json" := File "2"]> (<["new" := Dir]> ∅)))
        [] [] [].

Lemma flatten_json_dict kvs pk sep :
  flatten_json (JDict kvs) pk sep = flatten_dict pk sep kvs ∅.
Proof.
  simpl. generalize (∅ : gmap string scalar).
  induction kvs as [|kv kvs IH]; intros items; simpl; [done|]. apply IH.
Qed.

Lemma flatten_json_list l pk sep :
  flatten_json (JList l) pk sep = flatten_list pk sep 0 l ∅.
Proof.
  simpl. generalize (∅ : gmap string scalar) 0.
  induction l as [|v l IH]; intros items i; simpl; [done|]. apply IH.
Qed.

Lemma flatten_json_scalar s pk sep :
  flatten_json (JScalar s) pk sep = {[ pk := s ]}.
Proof. done. Qed.

(** ** Unfolding the nested loops *)

Lemma leaves_dict_eq kvs pk sep :
  leaves (JDict kvs) pk sep = leaves_dict pk sep kvs.
Proof. simpl. induction kvs as [|kv kvs IH]; simpl; [done|]. by rewrite IH. Qed.

Lemma leaves_list_eq l pk sep :
  leaves (JList l) pk sep = leaves_list pk sep 0 l.
Proof.
  simpl. generalize 0.
  induction l as [|v l IH]; intros i; simpl; [done|]. by rewrite IH.
Qed.

Lemma wf_list l : wf (JList l) ↔ Forall wf l.
Proof.
  simpl. induction l as [|x l IH]; [by split; [constructor|]|].
  rewrite Forall_cons. by rewrite IH.
Qed.

Lemma wf_dict kvs : wf (JDict kvs) ↔ NoDup kvs.*1 ∧ Forall (λ kv, wf kv.2) kvs.
Proof.
  simpl. apply and_iff_compat_l.
  induction kvs as [|x l IH]; [by split; [constructor|]|].
  rewrite Forall_cons. by rewrite IH.
Qed.

Lemma leaf_count_list l :
  leaf_count (JList l) = sum_list (leaf_count <$> l).
Proof. simpl. induction l as [|x l IH]; simpl; [done|]. by rewrite IH. Qed.

Lemma leaf_count_dict kvs :
  leaf_count (JDict kvs) = sum_list ((λ kv, leaf_count kv.2) <$> kvs).
Proof. simpl. induction kvs as [|x l IH]; simpl; [done|]. by rewrite IH. Qed.

Lemma depth_list l : depth (JList l) = S (max_list (depth <$> l)).
Proof. simpl. f_equal. induction l as [|x l IH]; simpl; [done|]. by rewrite IH. Qed.

Lemma depth_dict kvs :
  depth (JDict kvs) = S (max_list ((λ kv, depth kv.2) <$> kvs)).
Proof.
  simpl. f_equal. induction kvs as [|x l IH]; simpl; [done|]. by rewrite IH.
Qed.

(** ** [flatten_json] assigns the leaves in traversal order *)

Lemma assign_all_app l1 l2 :
  assign_all (l1 ++ l2) = assign_all l2 ∪ assign_all l1.
Proof. unfold assign_all. by rewrite reverse_app, list_to_map_app. Qed.

Lemma assign_all_nil : assign_all [] = ∅.
Proof. done. Qed.

Lemma flatten_dict_leaves pk sep kvs :
  Forall (λ kv, ∀ pk', flatten_json kv.2 pk' sep
                       = assign_all (leaves kv.2 pk' sep)) kvs →
  ∀ items, flatten_dict pk sep kvs items
           = assign_all (leaves_dict pk sep kvs) ∪ items.
Proof.
  induction 1 as [|kv kvs Hkv _ IH]; intros items; simpl.
  - by rewrite assign_all_nil, (left_id_L ∅ (∪)).
  - by rewrite IH, Hkv, assign_all_app, (assoc_L (∪)).
Qed.

Lemma flatten_list_leaves pk sep l :
  Forall (λ v, ∀ pk', flatten_json v pk' sep
                      = assign_all (leaves v pk' sep)) l →
  ∀ i items, flatten_list pk sep i l items
             = assign_all (leaves_list pk sep i l) ∪ items.
Proof.
  induction 1 as [|v l Hv _ IH]; intros i items; simpl.
  - by rewrite assign_all_nil, (left_id_L ∅ (∪)).
  - by rewrite IH, Hv, assign_all_app, (assoc_L (∪)).
Qed.

Lemma flatten_json_leaves d sep :
  ∀ pk, flatten_json d pk sep = assign_all (leaves d pk sep).
Proof.
  induction d as [s|l IH|kvs IH] using json_ind'; intros pk.
  - done.
  - rewrite flatten_json_list, leaves_list_eq, (flatten_list_leaves _ _ _ IH).
    by rewrite (right_id_L ∅ (∪)).
  - rewrite flatten_json_dict, leaves_dict_eq, (flatten_dict_leaves _ _ _ IH).
    by rewrite (right_id_L ∅ (∪)).
Qed.

Lemma leaves_list_length pk sep l :
  Forall (λ v, ∀ pk', length (leaves v pk' sep) = leaf_count v) l →
  ∀ i, length (leaves_list pk sep i l) = sum_list (leaf_count <$> l).
Proof.
  induction 1 as [|v l Hv _ IH]; intros i; simpl; [done|].
  by rewrite length_app, Hv, IH.
Qed.

Lemma leaves_dict_length pk sep kvs :
  Forall (λ kv, ∀ pk', length (leaves kv.2 pk' sep) = leaf_count kv.2) kvs →
  length (leaves_dict pk sep kvs) = sum_list ((λ kv, leaf_count kv.2) <$> kvs).
Proof.
  induction 1 as [|v l Hv _ IH]; simpl; [done|].
  by rewrite length_app, Hv, IH.
Qed.

Lemma leaves_length d sep :
  ∀ pk, length (leaves d pk sep) = leaf_count d.
Proof.
  induction d as [s|l IH|kvs IH] using json_ind'; intros pk.
  - done.
  - by rewrite leaves_list_eq, leaf_count_list, (leaves_list_length _ _ _ IH).
  - by rewrite leaves_dict_eq, leaf_count_dict, (leaves_dict_length _ _ _ IH).
Qed.

(** The paths recorded are those of the leaves, whatever the keys are. *)
Lemma flatten_json_dom d pk sep :
  dom (flatten_json d pk sep) = list_to_set (leaves d pk sep).*1.
Proof.
  rewrite flatten_json_leaves. unfold assign_all.
  rewrite dom_list_to_map_L. apply set_eq. intros p.
  rewrite !elem_of_list_to_set, fmap_reverse. apply elem_of_reverse.
Qed.

Lemma assign_all_NoDup l :
  NoDup l.*1 → assign_all l = list_to_map l.
Proof.
  intros Hnd. unfold assign_all. apply list_to_map_proper.
  - by rewrite fmap_reverse, reverse_Permutation.
  - apply reverse_Permutation.
Qed.

Lemma assign_all_size l :
  NoDup l.*1 → size (assign_all l) = length l.
Proof.
  intros Hnd. rewrite assign_all_NoDup by done.
  rewrite map_size_list_to_map; done.
Qed.

(** ** Paths of distinct leaves, when every key is plain *)

Lemma app_nil_l_s (t : string) : "" +:+ t = t.
Proof. done. Qed.

Lemma app_cons_s a (s t : string) : String a s +:+ t = String a (s +:+ t).
Proof. done. Qed.

Lemma app_nil_r_s (s : string) : s +:+ "" = s.
Proof. induction s as [|a s IH]; [done|]. by rewrite app_cons_s, IH. Qed.

Lemma app_assoc_s (s t u : string) : (s +:+ t) +:+ u = s +:+ (t +:+ u).
Proof. induction s as [|a s IH]; [done|]. by rewrite !app_cons_s, IH. Qed.

Section plain_keys.
(** The separator is the one character [c], which is not a digit. *)
Variable c : ascii.
Hypothesis c_not_digit : Ascii.is_nat c = None.

Let sep : string := String c EmptyString.

Lemma has_char_app s t :
  has_char c (s +:+ t) = has_char c s || has_char c t.
Proof.
  induction s as [|a s IH]; [done|].
  rewrite app_cons_s. simpl. by case_decide.
Qed.

Lemma key_tail_inj k1 k2 x y :
  has_char c k1 = false → has_char c k2 = false → tail c x → tail c y →
  k1 +:+ x = k2 +:+ y → k1 = k2 ∧ x = y.
Proof.
  revert k2. induction k1 as [|a k1 IH]; intros [|b k2];
    rewrite ?app_nil_l_s, ?app_cons_s; simpl.
  - done.
  - intros _ Hb [->|[r ->]] _; [done|].
    intros [= -> _]. by rewrite decide_True in Hb.
  - intros Ha _ _ [->|[r ->]]; [done|].
    intros [= -> _]. by rewrite decide_True in Ha.
  - intros Ha Hb Hx Hy [= -> Heq].
    case_decide; [done|].
    destruct (IH k2 Ha Hb Hx Hy Heq) as [-> ->]. done.
Qed.

Lemma pretty_N_char_not_sep n : pretty_N_char n ≠ c.
Proof.
  intros <-. unfold pretty_N_char in c_not_digit.
  by repeat case_match.
Qed.

Lemma pretty_N_go_plain x s :
  plain_key c s = true → plain_key c (pretty_N_go x s) = true.
Proof.
  revert s. induction (N.lt_wf_0 x) as [x _ IH]; intros s Hs.
  assert (x = 0 ∨ 0 < x)%N as [->|?] by lia.
  - by rewrite pretty_N_go_0.
  - rewrite pretty_N_go_step by done. apply IH.
    { by apply N.div_lt. }
    unfold plain_key in *; simpl.
    rewrite decide_False by apply pretty_N_char_not_sep.
    by apply andb_prop in Hs as [_ ->].
Qed.

Lemma str_plain i : plain_key c (str i) = true.
Proof.
  unfold str, pretty, pretty_nat, pretty, pretty_N.
  case_decide as H0.
  - unfold plain_key; simpl. rewrite decide_False; [done|].
    intros <-. done.
  - rewrite pretty_N_go_step by lia. apply pretty_N_go_plain.
    unfold plain_key; simpl.
    by rewrite decide_False by apply pretty_N_char_not_sep.
Qed.

Lemma plain_key_inv k :
  plain_key c k = true → k ≠ EmptyString ∧ has_char c k = false.
Proof.
  unfold plain_key. intros [Ht Hc]%andb_prop. split.
  - by intros ->.
  - by apply negb_true_iff.
Qed.

Lemma new_key_base pk k :
  new_key pk sep k = (if truthy pk then pk +:+ sep else EmptyString) +:+ k.
Proof.
  unfold new_key. destruct (truthy pk); [|done].
  by rewrite app_assoc_s.
Qed.

Lemma below_disjoint pk k1 k2 p :
  plain_key c k1 = true → plain_key c k2 = true →
  below c pk k1 p → below c pk k2 p → k1 = k2.
Proof.
  intros [_ H1]%plain_key_inv [_ H2]%plain_key_inv
    (x & Hx & ->) (y & Hy & Heq). fold sep in Heq.
  rewrite !new_key_base, !app_assoc_s in Heq.
  apply (inj (String.app _)) in Heq.
  by destruct (key_tail_inj k1 k2 x y H1 H2 Hx Hy Heq).
Qed.

Lemma new_key_truthy pk k :
  plain_key c k = true → new_key pk sep k ≠ EmptyString.
Proof.
  intros [Hk _]%plain_key_inv. unfold new_key.
  destruct pk; simpl; [done|]. done.
Qed.

Lemma below_tail pk k p :
  pk ≠ EmptyString → below c pk k p → ∃ x, tail c x ∧ p = pk +:+ x.
Proof.
  intros Hpk (x & Hx & ->). unfold new_key.
  destruct pk as [|a pk]; [done|]. simpl truthy. cbv iota.
  exists (sep +:+ k +:+ x). split; [right; by eexists|].
  by rewrite !app_assoc_s.
Qed.

Lemma leaves_dict_distinct pk kvs :
  Forall (λ kv, distinct_below c kv.2) kvs →
  Forall (λ kv, plain_key c kv.1 = true) kvs →
  NoDup kvs.*1 →
  NoDup (leaves_dict pk sep kvs).*1 ∧
  ∀ p, p ∈ (leaves_dict pk sep kvs).*1 →
       ∃ kv, kv ∈ kvs ∧ below c pk kv.1 p.
Proof.
  induction 1 as [|kv kvs Hkv _ IH]; intros Hplain Hnd; simpl.
  - split; [constructor|]. by intros p ?%elem_of_nil.
  - apply Forall_cons in Hplain as [Hk Hplain].
    apply NoDup_cons in Hnd as [Hnotin Hnd].
    destruct (IH Hplain Hnd) as [IHnd IHin].
    destruct (Hkv (new_key pk sep kv.1)) as [Hnd1 Hin1].
    specialize (Hin1 (new_key_truthy _ _ Hk)).
    rewrite fmap_app. split.
    + apply NoDup_app. split; [done|]. split; [|done].
      intros p Hp1 Hp2.
      destruct (IHin p Hp2) as (kv' & Hkv' & Hbelow').
      assert (kv.1 = kv'.1) as Heq.
      { eapply below_disjoint; [done| |by apply Hin1|done].
        by eapply (proj1 (Forall_forall _ _) Hplain). }
      apply Hnotin. rewrite Heq. by apply list_elem_of_fmap_2.
    + intros p [Hp|Hp]%elem_of_app.
      * exists kv. split; [left|]. by apply Hin1.
      * destruct (IHin p Hp) as (kv' & ? & ?).
        exists kv'. split; [by right|done].
Qed.

Lemma leaves_list_distinct pk l :
  Forall (distinct_below c) l →
  ∀ i, NoDup (leaves_list pk sep i l).*1 ∧
       ∀ p, p ∈ (leaves_list pk sep i l).*1 →
            ∃ j, i ≤ j ∧ below c pk (str j) p.
Proof.
  induction 1 as [|v l Hv _ IH]; intros i; simpl.
  - split; [constructor|]. by intros p ?%elem_of_nil.
  - destruct (IH (S i)) as [IHnd IHin].
    destruct (Hv (new_key pk sep (str i))) as [Hnd1 Hin1].
    specialize (Hin1 (new_key_truthy _ _ (str_plain i))).
    rewrite fmap_app. split.
    + apply NoDup_app. split; [done|]. split; [|done].
      intros p Hp1 Hp2.
      destruct (IHin p Hp2) as (j & Hj & Hbelow').
      assert (str i = str j) as Heq.
      { eapply below_disjoint; [apply str_plain|apply str_plain| |done].
        by apply Hin1. }
      apply (inj pretty) in Heq. lia.
    + intros p [Hp|Hp]%elem_of_app.
      * exists i. split; [done|]. by apply Hin1.
      * destruct (IHin p Hp) as (j & ? & ?). exists j. split; [lia|done].
Qed.

Lemma keys_ok_list l :
  keys_ok c (JList l) = true ↔ Forall (λ v, keys_ok c v = true) l.
Proof.
  simpl. rewrite <-Is_true_true, forallb_True.
  apply Forall_iff. intros v. apply Is_true_true.
Qed.

Lemma keys_ok_dict kvs :
  keys_ok c (JDict kvs) = true ↔
  Forall (λ kv, plain_key c kv.1 = true ∧ keys_ok c kv.2 = true) kvs.
Proof.
  simpl. rewrite <-Is_true_true, forallb_True.
  apply Forall_iff. intros v.
  rewrite <-!Is_true_true. apply andb_True.
Qed.

Lemma leaves_distinct d :
  keys_ok c d = true → wf d → distinct_below c d.
Proof.
  induction d as [s|l IH|kvs IH] using json_ind'; intros Hok Hwf pk.
  - simpl. split; [apply NoDup_singleton|].
    intros _ p ->%list_elem_of_singleton.
    exists EmptyString. split; [by left|].
    by rewrite app_nil_r_s.
  - apply keys_ok_list in Hok. apply wf_list in Hwf.
    assert (Forall (distinct_below c) l) as Hall.
    { apply Forall_forall. intros v Hv.
      apply (proj1 (Forall_forall _ _) IH v Hv).
      - by apply (proj1 (Forall_forall _ _) Hok).
      - by apply (proj1 (Forall_forall _ _) Hwf). }
    rewrite leaves_list_eq.
    destruct (leaves_list_distinct pk l Hall 0) as [Hnd Hin].
    split; [done|]. intros Hpk p Hp.
    destruct (Hin p Hp) as (j & _ & Hbelow). by eapply below_tail.
  - apply keys_ok_dict in Hok. apply wf_dict in Hwf as [Hnd Hwf].
    assert (Forall (λ kv, distinct_below c kv.2) kvs) as Hall.
    { apply Forall_forall. intros kv Hkv.
      apply (proj1 (Forall_forall _ _) IH kv Hkv).
      - by apply (proj1 (Forall_forall _ _) Hok kv Hkv).
      - by apply (proj1 (Forall_forall _ _) Hwf). }
    rewrite leaves_dict_eq.
    destruct (leaves_dict_distinct pk kvs Hall) as [Hnd' Hin]; [|done|].
    { eapply Forall_impl; [exact Hok|]. by intros kv [? _]. }
    split; [done|]. intros Hpk p Hp.
    destruct (Hin p Hp) as (kv & _ & Hbelow). by eapply below_tail.
Qed.
End plain_keys.

(** ** Properties of the flattener *)

(** C6: a scalar document (null included) flattened with the empty prefix is
    the one-entry flat view that maps the empty path to that scalar. *)
Theorem flatten_scalar_top (s : scalar) (sep : string) :
  flatten_json (JScalar s) "" sep = {[ "" := s ]}
  ∧ size (flatten_json (JScalar s) "" sep) = 1
  ∧ flatten_json (JScalar s) "" sep !! "" = Some s.
Proof.
  rewrite flatten_json_scalar. split; [done|]. split.
  - apply map_size_singleton.
  - apply lookup_singleton_eq.
Qed.

(** C1, as stated, fails: the well-formed document
    [{"a.b": 1, "a": {"b": 2}}] has two leaves, both recorded under the path
    ["a.b"], and its flat view has one entry, from which the leaf 1 is
    missing. *)
Lemma flatten_not_injective :
  wf dotted_key_doc
  ∧ leaf_count dotted_key_doc = 2
  ∧ leaves dotted_key_doc "" "." = [("a.b", SInt 1); ("a.b", SInt 2)]
  ∧ size (flatten_json dotted_key_doc "" ".") = 1
  ∧ flatten_json dotted_key_doc "" "." !! "a.b" = Some (SInt 2)
  ∧ ¬ (∀ d : json, wf d →
         size (flatten_json d "" ".") = leaf_count d
         ∧ NoDup (leaves d "" ".").*1).
Proof.
  assert (wf dotted_key_doc) as Hwf.
  { simpl. repeat split; apply (bool_decide_unpack _); by vm_compute. }
  split; [done|]. split; [done|]. split; [done|].
  split; [by vm_compute|]. split; [by vm_compute|].
  intros H. destruct (H _ Hwf) as [Hsize _]. by vm_compute in Hsize.
Qed.

(** C1, amended: when the separator is one character that is not a digit and
    every mapping key of a well-formed document is non-empty and free of that
    character, the leaves are recorded under pairwise distinct paths, the flat
    view has as many entries as the document has leaves, and it maps the path
    of every leaf to the value of that leaf. *)
Theorem flatten_injective (c : ascii) (d : json) :
  Ascii.is_nat c = None →
  wf d →
  keys_ok c d = true →
  let flat := flatten_json d "" (String c "") in
  let lvs := leaves d "" (String c "") in
  NoDup lvs.*1
  ∧ size flat = leaf_count d
  ∧ length lvs = leaf_count d
  ∧ (∀ p v, (p, v) ∈ lvs ↔ flat !! p = Some v).
Proof.
  intros Hc Hwf Hok flat lvs.
  destruct (leaves_distinct c Hc d Hok Hwf "") as [Hnd _].
  fold lvs in Hnd. subst flat.
  rewrite flatten_json_leaves. fold lvs.
  split; [done|]. split; [|split].
  - rewrite assign_all_size by done. apply leaves_length.
  - apply leaves_length.
  - intros p v. rewrite assign_all_NoDup by done.
    by apply elem_of_list_to_map.
Qed.

Lemma flatten_injective_witness :
  let flat := flatten_json plain_doc "" "." in
  let lvs := leaves plain_doc "" "." in
  NoDup lvs.*1
  ∧ size flat = leaf_count plain_doc
  ∧ length lvs = leaf_count plain_doc
  ∧ (∀ p v, (p, v) ∈ lvs ↔ flat !! p = Some v).
Proof.
  apply (flatten_injective "." plain_doc).
  - reflexivity.
  - simpl. repeat split; apply (bool_decide_unpack _); by vm_compute.
  - reflexivity.
Defined.

(** ** [sorted] *)

Lemma sorted_Permutation (X : gset string) : sorted X ≡ₚ elements X.
Proof. apply merge_sort_Permutation. Qed.

Lemma sorted_StronglySorted (X : gset string) :
  StronglySorted String.le (sorted X).
Proof. apply (StronglySorted_merge_sort _). Qed.

Lemma sorted_NoDup (X : gset string) : NoDup (sorted X).
Proof. rewrite sorted_Permutation. apply NoDup_elements. Qed.

Lemma elem_of_sorted (X : gset string) k : k ∈ sorted X ↔ k ∈ X.
Proof. rewrite sorted_Permutation. apply elem_of_elements. Qed.

Lemma sorted_to_set (X : gset string) : list_to_set (sorted X) = X.
Proof. apply set_eq. intros k. by rewrite elem_of_list_to_set, elem_of_sorted. Qed.

Lemma sorted_length (X : gset string) : length (sorted X) = size X.
Proof. by rewrite sorted_Permutation. Qed.

Lemma sorted_empty : sorted ∅ = [].
Proof.
  apply Permutation_nil_r. by rewrite sorted_Permutation, elements_empty.
Qed.

Lemma StronglySorted_filter {A} (R : relation A) (P : A → Prop)
    `{∀ x, Decision (P x)} (l : list A) :
  StronglySorted R l → StronglySorted R (filter P l).
Proof.
  induction 1 as [|x l Hl IH Hx]; [constructor|].
  rewrite filter_cons. case_decide; [|done].
  constructor; [done|].
  apply Forall_forall. intros y [_ Hy]%list_elem_of_filter.
  by apply (proj1 (Forall_forall _ _) Hx).
Qed.

(** ** The loop of [compare_json] *)

Lemma compare_loop_spec flat1 flat2 keys :
  Forall (λ k, is_Some (flat1 !! k) ∧ is_Some (flat2 !! k)) keys →
  ∀ ib ds,
    compare_loop flat1 flat2 keys ib ds
    = Some (ib ++ filter (λ k, same_at flat1 flat2 k) keys,
            ds ++ (diff_at flat1 flat2
                     <$> filter (λ k, ¬ same_at flat1 flat2 k) keys)).
Proof.
  induction 1 as [|k keys [[v1 H1] [v2 H2]] _ IH]; intros ib ds; simpl.
  - by rewrite ?filter_nil, ?fmap_nil, ?app_nil_r.
  - rewrite H1, H2. simpl. rewrite !filter_cons.
    assert (same_at flat1 flat2 k = py_eq v1 v2) as Hsame.
    { unfold same_at. by rewrite H1, H2. }
    unfold py_ne. destruct (py_eq v1 v2) eqn:Heq; simpl; rewrite IH.
    + rewrite decide_True by (by rewrite Hsame).
      rewrite decide_False by (rewrite Hsame; intros H; by apply H).
      by rewrite <-(assoc_L (++)).
    + rewrite decide_False by (rewrite Hsame; cbv; tauto).
      rewrite decide_True by (rewrite Hsame; cbv; tauto).
      rewrite fmap_cons, <-(assoc_L (++)). simpl.
      unfold diff_at at 2.
      by rewrite (lookup_total_correct _ _ _ H1),
        (lookup_total_correct _ _ _ H2).
Qed.

Lemma both_keys_present (flat1 flat2 : gmap string scalar) :
  Forall (λ k, is_Some (flat1 !! k) ∧ is_Some (flat2 !! k))
         (sorted (dom flat1 ∩ dom flat2)).
Proof.
  apply Forall_forall. intros k Hk%elem_of_sorted.
  apply elem_of_intersection in Hk as [H1 H2].
  by rewrite <-!elem_of_dom.
Qed.

(** [compare_flat] never raises, and this is what it returns. *)
Lemma compare_flat_spec (flat1 flat2 : gmap string scalar) :
  let both := sorted (dom flat1 ∩ dom flat2) in
  compare_flat flat1 flat2
  = Some (Comparison
            (sorted (dom flat1 ∖ dom flat2))
            (sorted (dom flat2 ∖ dom flat1))
            (diff_at flat1 flat2
               <$> filter (λ k, ¬ same_at flat1 flat2 k) both)
            (filter (λ k, same_at flat1 flat2 k) both)).
Proof.
  intros both. unfold compare_flat. fold both.
  by rewrite (compare_loop_spec _ _ _ (both_keys_present flat1 flat2)).
Qed.

Lemma diff_keys_diff_at flat1 flat2 (ks : list string) :
  diff_keys (diff_at flat1 flat2 <$> ks) = ks.
Proof.
  unfold diff_keys.
  induction ks as [|k ks IH]; [done|]. rewrite !fmap_cons. by rewrite IH.
Qed.

Lemma elem_of_filter_both (flat1 flat2 : gmap string scalar)
    (P : string → Prop) `{∀ k, Decision (P k)} k :
  k ∈ (list_to_set (filter P (sorted (dom flat1 ∩ dom flat2))) : gset string)
  ↔ P k ∧ k ∈ dom flat1 ∧ k ∈ dom flat2.
Proof.
  rewrite elem_of_list_to_set, list_elem_of_filter, elem_of_sorted.
  by rewrite elem_of_intersection.
Qed.

Lemma size_three_way (X Y : gset string) :
  size (X ∖ Y) + size (Y ∖ X) + size (X ∩ Y) = size (X ∪ Y).
Proof.
  assert (X ∪ Y = (X ∖ Y) ∪ ((Y ∖ X) ∪ (X ∩ Y))) as ->.
  { apply set_eq. intros k.
    rewrite !elem_of_union, !elem_of_difference, elem_of_intersection.
    destruct (decide (k ∈ X)), (decide (k ∈ Y)); tauto. }
  rewrite (size_union (X ∖ Y)), (size_union (Y ∖ X)); [lia|..];
    intros k; rewrite ?elem_of_union, !elem_of_difference,
      ?elem_of_intersection; tauto.
Qed.

Lemma filter_split_length {A} (P : A → Prop) `{∀ x, Decision (P x)}
    (l : list A) :
  length (filter (λ x, ¬ P x) l) + length (filter P l) = length l.
Proof.
  rewrite <-(filter_app_complement P l) at 3. rewrite length_app. lia.
Qed.

(** ** Properties of the comparison *)

(** C2: the four lists that [compare_json] computes from two flat views are
    pairwise disjoint, together they hold exactly the keys of the two views,
    and their lengths add up to the number of those keys. *)
Theorem compare_partition (flat1 flat2 : gmap string scalar) :
  ∃ c, compare_flat flat1 flat2 = Some c ∧
    let onlyA : gset string := list_to_set (only1 c) in
    let onlyB : gset string := list_to_set (only2 c) in
    let differing : gset string := list_to_set (diff_keys (diffs c)) in
    let identical : gset string := list_to_set (in_both c) in
    onlyA ∪ onlyB ∪ differing ∪ identical = dom flat1 ∪ dom flat2
    ∧ onlyA ## onlyB ∧ onlyA ## differing ∧ onlyA ## identical
    ∧ onlyB ## differing ∧ onlyB ## identical ∧ differing ## identical
    ∧ length (only1 c) + length (only2 c)
      + length (diffs c) + length (in_both c)
      = size (dom flat1 ∪ dom flat2).
Proof.
  eexists. split; [apply compare_flat_spec|]. cbn zeta. simpl.
  rewrite diff_keys_diff_at, !sorted_to_set.
  assert (∀ k, k ∈ dom flat1 → k ∈ dom flat2 →
               same_at flat1 flat2 k ∨ ¬ same_at flat1 flat2 k) as Hcase.
  { intros k _ _. destruct (same_at flat1 flat2 k); cbv; tauto. }
  repeat split.
  - apply set_eq. intros k.
    rewrite !elem_of_union, !elem_of_filter_both, !elem_of_difference.
    destruct (decide (k ∈ dom flat1)), (decide (k ∈ dom flat2));
      specialize (Hcase k); tauto.
  - intros k. rewrite !elem_of_difference. tauto.
  - intros k. rewrite elem_of_filter_both, elem_of_difference. tauto.
  - intros k. rewrite elem_of_filter_both, elem_of_difference. tauto.
  - intros k. rewrite elem_of_filter_both, elem_of_difference. tauto.
  - intros k. rewrite elem_of_filter_both, elem_of_difference. tauto.
  - intros k. rewrite !elem_of_filter_both. tauto.
  - rewrite length_fmap, !sorted_length, <-Nat.add_assoc.
    rewrite filter_split_length, sorted_length. apply size_three_way.
Qed.

(** C5: the only-in-A and only-in-B lists are in ascending lexicographic
    order; the paths of [differing_values] and the identical list are
    what the loop keeps, in order, of the ascending list of the common
    keys, so both are ascending too. *)
Theorem compare_sorted (flat1 flat2 : gmap string scalar) :
  ∃ c, compare_flat flat1 flat2 = Some c ∧
    let both := sorted (dom flat1 ∩ dom flat2) in
    StronglySorted String.le (only1 c)
    ∧ StronglySorted String.le (only2 c)
    ∧ StronglySorted String.le both
    ∧ diff_keys (diffs c) `sublist_of` both
    ∧ in_both c `sublist_of` both
    ∧ StronglySorted String.le (diff_keys (diffs c))
    ∧ StronglySorted String.le (in_both c)
    ∧ only1 c ≡ₚ elements (dom flat1 ∖ dom flat2)
    ∧ only2 c ≡ₚ elements (dom flat2 ∖ dom flat1)
    ∧ both ≡ₚ elements (dom flat1 ∩ dom flat2).
Proof.
  eexists. split; [apply compare_flat_spec|]. cbn zeta. simpl.
  rewrite diff_keys_diff_at.
  repeat split;
    auto using sorted_StronglySorted, sorted_Permutation,
      StronglySorted_filter; by apply sublist_filter.
Qed.

(** ** Python's [==] *)

Lemma SFeqb_refl f : f ≠ S754_nan → SFeqb f f = true.
Proof.
  intros Hf. unfold SFeqb. destruct f as [s|s| |s m e]; simpl.
  - done.
  - by destruct s.
  - done.
  - rewrite Z.compare_refl, Pos.compare_cont_refl. by destruct s.
Qed.

Lemma py_eq_refl v : v ≠ SFloat S754_nan → py_eq v v = true.
Proof.
  intros Hv. destruct v as [|b|n|f|s]; simpl.
  - done.
  - apply Z.eqb_refl.
  - apply Z.eqb_refl.
  - apply SFeqb_refl. by intros ->.
  - by apply bool_decide_eq_true.
Qed.

Lemma same_at_lookup flat1 flat2 k v1 v2 :
  flat1 !! k = Some v1 → flat2 !! k = Some v2 →
  same_at flat1 flat2 k = py_eq v1 v2.
Proof. intros H1 H2. unfold same_at. by rewrite H1, H2. Qed.

(** C4, as stated, fails: for [{"a": true}] against [{"a": 1}] the path
    ["a"] is in both flat views, a boolean and a number are not equal under
    a type-sensitive equality, and yet the path is classified identical. *)
Lemma bool_number_identical :
  let A : gmap string scalar := {[ "a" := SBool true ]} in
  let B : gmap string scalar := {[ "a" := SInt 1 ]} in
  A !! "a" = Some (SBool true)
  ∧ B !! "a" = Some (SInt 1)
  ∧ typed_eq (SBool true) (SInt 1) = false
  ∧ compare_flat A B = Some (Comparison [] [] [] ["a"])
  ∧ compare_docs (JDict [("a", JScalar (SBool true))])
                 (JDict [("a", JScalar (SInt 1))])
    = Some (Comparison [] [] [] ["a"]).
Proof. repeat split; by vm_compute. Qed.

(** C4, amended: a path of both flat views is classified as differing
    exactly when Python's [!=] holds of its two values, and as identical
    otherwise.  That equality tells a number from a string and compares
    floats exactly; it agrees with the type-sensitive equality on two values
    of one JSON type, and on values of two types it holds only of a boolean
    and the number 1 (for true) or 0 (for false). *)
Theorem compare_classifies (flat1 flat2 : gmap string scalar)
    (p : string) (v1 v2 : scalar) :
  flat1 !! p = Some v1 →
  flat2 !! p = Some v2 →
  ∃ c, compare_flat flat1 flat2 = Some c
    ∧ (Diff p v1 v2 ∈ diffs c ↔ py_eq v1 v2 = false)
    ∧ (p ∈ diff_keys (diffs c) ↔ py_eq v1 v2 = false)
    ∧ (p ∈ in_both c ↔ py_eq v1 v2 = true)
    ∧ (∀ n f s, py_eq (SInt n) (SStr s) = false
                ∧ py_eq (SStr s) (SInt n) = false
                ∧ py_eq (SFloat f) (SStr s) = false
                ∧ py_eq (SStr s) (SFloat f) = false)
    ∧ (∀ f g, py_eq (SFloat f) (SFloat g) = SFeqb f g)
    ∧ (kind_of v1 = kind_of v2 → py_eq v1 v2 = typed_eq v1 v2)
    ∧ (kind_of v1 ≠ kind_of v2 → py_eq v1 v2 = true →
       ∃ b, (v1 = SBool b ∧ kind_of v2 = KNumber
             ∧ py_eq (SInt (if b then 1 else 0)) v2 = true)
          ∨ (v2 = SBool b ∧ kind_of v1 = KNumber
             ∧ py_eq v1 (SInt (if b then 1 else 0)) = true)).
Proof.
  intros H1 H2. eexists. split; [apply compare_flat_spec|]. cbn zeta. simpl.
  rewrite diff_keys_diff_at.
  pose proof (same_at_lookup _ _ _ _ _ H1 H2) as Hsame.
  assert (p ∈ sorted (dom flat1 ∩ dom flat2)) as Hboth.
  { apply elem_of_sorted, elem_of_intersection.
    by rewrite !elem_of_dom, H1, H2. }
  assert (diff_at flat1 flat2 p = Diff p v1 v2) as Hat.
  { unfold diff_at.
    by rewrite (lookup_total_correct _ _ _ H1),
      (lookup_total_correct _ _ _ H2). }
  assert (¬ same_at flat1 flat2 p ↔ py_eq v1 v2 = false) as Hne.
  { rewrite Hsame. destruct (py_eq v1 v2); cbv; intuition congruence. }
  repeat split.
  - intros (k & Hk & Hin)%list_elem_of_fmap.
    unfold diff_at in Hk. injection Hk as -> _ _.
    apply list_elem_of_filter in Hin as [Hin _]. by apply Hne.
  - intros Hfalse. rewrite <-Hat. apply list_elem_of_fmap_2.
    apply list_elem_of_filter. split; [by apply Hne|done].
  - intros [Hin _]%list_elem_of_filter. by apply Hne.
  - intros Hfalse. apply list_elem_of_filter. split; [by apply Hne|done].
  - intros [Hin _]%list_elem_of_filter. rewrite Hsame in Hin.
    by apply Is_true_true.
  - intros Htrue. apply list_elem_of_filter. split; [|done].
    rewrite Hsame. by apply Is_true_true.
  - intros Hk. unfold typed_eq. by rewrite bool_decide_eq_true_2.
  - intros Hk Heq.
    destruct v1 as [|b1|n1|f1|s1], v2 as [|b2|n2|f2|s2];
      simpl in Hk, Heq; try done.
    + exists b1. left. by repeat split.
    + exists b1. left. by repeat split.
    + exists b2. right. by repeat split.
    + exists b2. right. by repeat split.
Qed.

Lemma compare_classifies_witness :
  ({[ "a" := SInt 1 ]} : gmap string scalar) !! "a" = Some (SInt 1)
  ∧ ({[ "a" := SStr "1" ]} : gmap string scalar) !! "a" = Some (SStr "1")
  ∧ ∃ c, compare_flat {[ "a" := SInt 1 ]} {[ "a" := SStr "1" ]} = Some c
      ∧ (Diff "a" (SInt 1) (SStr "1") ∈ diffs c
         ↔ py_eq (SInt 1) (SStr "1") = false).
Proof.
  split; [reflexivity|]. split; [reflexivity|].
  destruct (compare_classifies {[ "a" := SInt 1 ]} {[ "a" := SStr "1" ]}
              "a" (SInt 1) (SStr "1")) as (c & Hc & Hd & _).
  - reflexivity.
  - reflexivity.
  - exists c. split; [exact Hc|exact Hd].
Defined.

(** ** Comparing a document against itself *)

Lemma leaves_list_values (P : scalar → Prop) pk sep l :
  Forall (λ v, ∀ pk', Forall (λ pv, P pv.2) (leaves v pk' sep)) l →
  ∀ i, Forall (λ pv, P pv.2) (leaves_list pk sep i l).
Proof.
  induction 1 as [|v l Hv _ IH]; intros i; simpl; [constructor|].
  apply Forall_app. split; [apply Hv|apply IH].
Qed.

Lemma leaves_dict_values (P : scalar → Prop) pk sep kvs :
  Forall (λ kv, ∀ pk', Forall (λ pv, P pv.2) (leaves kv.2 pk' sep)) kvs →
  Forall (λ pv, P pv.2) (leaves_dict pk sep kvs).
Proof.
  induction 1 as [|kv kvs Hkv _ IH]; simpl; [constructor|].
  apply Forall_app. split; [apply Hkv|apply IH].
Qed.

Lemma nan_free_leaves d sep :
  nan_free d = true →
  ∀ pk, Forall (λ pv, pv.2 ≠ SFloat S754_nan) (leaves d pk sep).
Proof.
  induction d as [s|l IH|kvs IH] using json_ind'; intros Hd pk.
  - simpl. constructor; [|constructor]. simpl. intros ->. done.
  - rewrite leaves_list_eq.
    apply (leaves_list_values (λ v, v ≠ SFloat S754_nan)).
    simpl in Hd. apply Is_true_true, forallb_True in Hd.
    apply Forall_forall. intros v Hv.
    apply (proj1 (Forall_forall _ _) IH v Hv).
    by apply Is_true_true, (proj1 (Forall_forall _ _) Hd).
  - rewrite leaves_dict_eq.
    apply (leaves_dict_values (λ v, v ≠ SFloat S754_nan)).
    simpl in Hd. apply Is_true_true, forallb_True in Hd.
    apply Forall_forall. intros kv Hkv.
    apply (proj1 (Forall_forall _ _) IH kv Hkv).
    by apply Is_true_true, (proj1 (Forall_forall _ _) Hd kv).
Qed.

Lemma nan_free_flat d pk sep k v :
  nan_free d = true → flatten_json d pk sep !! k = Some v →
  v ≠ SFloat S754_nan.
Proof.
  intros Hd Hk. rewrite flatten_json_leaves in Hk.
  apply elem_of_list_to_map_2 in Hk. rewrite elem_of_reverse in Hk.
  apply (proj1 (Forall_forall _ _) (nan_free_leaves d sep Hd pk) _ Hk).
Qed.

Lemma compare_flat_self (flat : gmap string scalar) :
  (∀ k v, flat !! k = Some v → v ≠ SFloat S754_nan) →
  compare_flat flat flat = Some (Comparison [] [] [] (sorted (dom flat))).
Proof.
  intros Hflat. rewrite compare_flat_spec. cbn zeta.
  assert (dom flat ∖ dom flat = (∅ : gset string)) as ->.
  { apply set_eq. intros k. rewrite elem_of_difference, elem_of_empty. tauto. }
  assert (dom flat ∩ dom flat = dom flat) as ->.
  { apply set_eq. intros k. rewrite elem_of_intersection. tauto. }
  rewrite sorted_empty.
  assert (Forall (λ k, same_at flat flat k) (sorted (dom flat))) as Hall.
  { apply Forall_forall. intros k [v Hv]%elem_of_sorted%elem_of_dom.
    rewrite (same_at_lookup _ _ _ _ _ Hv Hv).
    apply Is_true_true, py_eq_refl. by eapply Hflat. }
  assert (filter (λ k, same_at flat flat k) (sorted (dom flat))
          = sorted (dom flat)) as ->.
  { clear -Hall. induction Hall as [|k ks Hk _ IH]; [done|].
    rewrite filter_cons, decide_True by done. by rewrite IH. }
  assert (filter (λ k, ¬ same_at flat flat k) (sorted (dom flat)) = [])
    as ->; [|done].
  clear -Hall. induction Hall as [|k ks Hk _ IH]; [done|].
  rewrite filter_cons, decide_False by tauto. done.
Qed.

(** C7, as stated, fails: [{"a": NaN}], which [json.load] reads, compared
    against itself has the path ["a"] in [differing_values] and nothing in
    the identical list, for [nan != nan]. *)
Lemma nan_self_compare_differs :
  wf nan_doc
  ∧ compare_docs nan_doc nan_doc
    = Some (Comparison [] []
              [Diff "a" (SFloat S754_nan) (SFloat S754_nan)] [])
  ∧ ¬ (∀ d : json, wf d →
         compare_docs d d
         = Some (Comparison [] [] []
                   (sorted (dom (flatten_json d "" "."))))).
Proof.
  assert (wf nan_doc) as Hwf.
  { simpl. repeat split. apply (bool_decide_unpack _). by vm_compute. }
  split; [done|]. split; [by vm_compute|].
  intros H. specialize (H _ Hwf). by vm_compute in H.
Qed.

(** C7, amended: a document none of whose leaves is a NaN, compared against
    itself, has empty only-in-A, only-in-B and [differing_values] lists,
    and its identical list is the sorted list of all its flattened paths. *)
Theorem compare_self (d : json) :
  nan_free d = true →
  compare_docs d d
  = Some (Comparison [] [] [] (sorted (dom (flatten_json d "" "."))))
  ∧ (∀ p, p ∈ sorted (dom (flatten_json d "" "."))
          ↔ is_Some (flatten_json d "" "." !! p)).
Proof.
  intros Hd. split.
  - apply compare_flat_self. intros k v. by apply nan_free_flat.
  - intros p. by rewrite elem_of_sorted, elem_of_dom.
Qed.

Lemma compare_self_witness :
  nan_free plain_doc = true
  ∧ compare_docs plain_doc plain_doc
    = Some (Comparison [] [] []
              (sorted (dom (flatten_json plain_doc "" ".")))).
Proof.
  split; [reflexivity|]. apply (compare_self plain_doc). reflexivity.
Defined.

(** ** Empty containers *)

Lemma flatten_dict_app pk sep kvs1 kvs2 items :
  flatten_dict pk sep (kvs1 ++ kvs2) items
  = flatten_dict pk sep kvs2 (flatten_dict pk sep kvs1 items).
Proof.
  revert items. induction kvs1 as [|kv kvs1 IH]; intros items; simpl; [done|].
  apply IH.
Qed.

Lemma flatten_list_app pk sep l1 l2 i items :
  flatten_list pk sep i (l1 ++ l2) items
  = flatten_list pk sep (length l1 + i) l2 (flatten_list pk sep i l1 items).
Proof.
  revert i items. induction l1 as [|v l1 IH]; intros i items; simpl; [done|].
  rewrite IH. by rewrite Nat.add_succ_r.
Qed.

Lemma list_to_map_size_le (l : list (string * scalar)) :
  size (list_to_map l : gmap string scalar) ≤ length l.
Proof.
  induction l as [|[p v] l IH]; simpl; [by rewrite map_size_empty|].
  destruct ((list_to_map l : gmap string scalar) !! p) as [w|] eqn:Hp.
  - rewrite map_size_insert_Some by done. lia.
  - rewrite map_size_insert_None by done. lia.
Qed.

(** C9: an empty mapping or sequence flattens to the empty flat view under
    every prefix, so a document flattens as it does with an empty member of a
    mapping removed, or with an empty last element of a sequence removed;
    [{"a": {}}] flattens to the empty flat view, and compared against [{}] it
    gives four empty lists. *)
Theorem empty_container_no_path :
  (∀ pk sep, flatten_json (JDict []) pk sep = ∅
             ∧ flatten_json (JList []) pk sep = ∅)
  ∧ (∀ kvs1 k kvs2 pk sep,
       flatten_json (JDict (kvs1 ++ (k, JDict []) :: kvs2)) pk sep
       = flatten_json (JDict (kvs1 ++ kvs2)) pk sep
       ∧ flatten_json (JDict (kvs1 ++ (k, JList []) :: kvs2)) pk sep
         = flatten_json (JDict (kvs1 ++ kvs2)) pk sep)
  ∧ (∀ l pk sep,
       flatten_json (JList (l ++ [JDict []])) pk sep
       = flatten_json (JList l) pk sep
       ∧ flatten_json (JList (l ++ [JList []])) pk sep
         = flatten_json (JList l) pk sep)
  ∧ (∀ d pk sep, size (flatten_json d pk sep) ≤ leaf_count d)
  ∧ flatten_json empty_inside_doc "" "." = ∅
  ∧ compare_docs empty_inside_doc (JDict []) = Some (Comparison [] [] [] []).
Proof.
  split; [done|]. split; [|split; [|split; [|split]]].
  - intros kvs1 k kvs2 pk sep.
    rewrite !flatten_json_dict, !flatten_dict_app. simpl.
    by rewrite !(left_id_L ∅ (∪)).
  - intros l pk sep.
    rewrite !flatten_json_list, !flatten_list_app. simpl.
    by rewrite !(left_id_L ∅ (∪)).
  - intros d pk sep. rewrite flatten_json_leaves, <-(leaves_length d sep pk).
    unfold assign_all. rewrite <-(length_reverse (leaves d pk sep)).
    apply list_to_map_size_le.
  - done.
  - by vm_compute.
Qed.

(** ** Termination of the flattener *)

Lemma frames_dict frames pk sep kvs :
  Forall (λ kv, ∀ pk', flatten_json_frames frames kv.2 pk' sep
                       = Some (flatten_json kv.2 pk' sep)) kvs →
  ∀ items,
    foldl (λ acc kv,
             items ← acc;
             sub ← flatten_json_frames frames kv.2 (new_key pk sep kv.1) sep;
             Some (sub ∪ items))
          (Some items) kvs
    = Some (flatten_dict pk sep kvs items).
Proof.
  induction 1 as [|kv kvs Hkv _ IH]; intros items; simpl; [done|].
  rewrite Hkv. simpl. apply IH.
Qed.

Lemma frames_list frames pk sep l :
  Forall (λ v, ∀ pk', flatten_json_frames frames v pk' sep
                      = Some (flatten_json v pk' sep)) l →
  ∀ i items,
    fst <$>
    foldl (λ acc v,
             '(items, i) ← acc;
             sub ← flatten_json_frames frames v (new_key pk sep (str i)) sep;
             Some (sub ∪ items, S i))
          (Some (items, i)) l
    = Some (flatten_list pk sep i l items).
Proof.
  induction 1 as [|v l Hv _ IH]; intros i items; simpl; [done|].
  rewrite Hv. simpl. apply IH.
Qed.

Lemma max_list_lt (l : list nat) n :
  max_list l < n → Forall (λ m, m < n) l.
Proof.
  induction l as [|m l IH]; simpl; intros Hn; constructor; [lia|].
  apply IH. lia.
Qed.

(** C8: [flatten_json] is a total function of the document, the prefix and
    the separator, and a call on a document of nesting depth [depth data]
    never has more than [depth data + 1] frames of [flatten_json] on the
    stack: with that many frames or more it returns the flat view. *)
Theorem flatten_terminates (data : json) (sep : string) :
  ∀ frames parent_key,
    depth data < frames →
    flatten_json_frames frames data parent_key sep
    = Some (flatten_json data parent_key sep).
Proof.
  induction data as [s|l IH|kvs IH] using json_ind';
    intros [|frames] pk Hd; try lia.
  - done.
  - rewrite depth_list in Hd.
    rewrite flatten_json_list. cbn [flatten_json_frames].
    apply frames_list. apply Forall_forall. intros v Hv pk'.
    apply (proj1 (Forall_forall _ _) IH v Hv).
    assert (Forall (λ m, m < frames) (depth <$> l)) as Hall
      by (apply max_list_lt; lia).
    apply (proj1 (Forall_forall _ _) Hall). by apply list_elem_of_fmap_2.
  - rewrite depth_dict in Hd.
    rewrite flatten_json_dict. cbn [flatten_json_frames].
    apply frames_dict. apply Forall_forall. intros kv Hkv pk'.
    apply (proj1 (Forall_forall _ _) IH kv Hkv).
    assert (Forall (λ m, m < frames) ((λ kv, depth kv.2) <$> kvs)) as Hall
      by (apply max_list_lt; lia).
    apply (proj1 (Forall_forall _ _) Hall).
    by apply (list_elem_of_fmap_2 (λ kv, depth kv.2)).
Qed.

Lemma flatten_terminates_witness :
  depth plain_doc < 4
  ∧ flatten_json_frames 4 plain_doc "" "."
    = Some (flatten_json plain_doc "" ".").
Proof.
  split; [vm_compute; lia|]. apply flatten_terminates. vm_compute; lia.
Defined.

(** ** Running [compare_json] and [main] *)

Lemma validate_two file1 file2 (w : world) :
  validate [file1; file2] w
  = if is_regular (fs w) file1
    then if is_regular (fs w) file2
         then (Return (),
               World (fs w) (stdout w) (stderr w)
                 (log w ++ [EvIsFile file1; EvIsFile file2]))
         else (Exit 1,
               World (fs w) (stdout w) (stderr w ++ [missing_msg file2])
                 (log w ++ [EvIsFile file1; EvIsFile file2]))
    else (Exit 1,
          World (fs w) (stdout w) (stderr w ++ [missing_msg file1])
            (log w ++ [EvIsFile file1])).
Proof.
  unfold validate, mbind, io_bind, isfile, print_err, sys_exit, record, mret,
    io_ret. simpl.
  destruct (is_regular (fs w) file1); simpl; [|done].
  destruct (is_regular (fs w) file2); simpl.
  - by rewrite <-(assoc_L (++)).
  - by rewrite <-(assoc_L (++)).
Qed.

(** C3: when one of the two input paths is not an existing regular file,
    [main] ends with exit code 1 after it has written the diagnostic for the
    first such path to the error stream; nothing was written to the standard
    output, the file system is as it was (no output file created or
    overwritten), and the only calls made are [isfile] checks: no file was
    opened and nothing was parsed. *)
Theorem missing_input_exits (loads : string → option json)
    (dumps : gmap string field → string)
    (file1 file2 output : string) (w : world) :
  is_regular (fs w) file1 = false ∨ is_regular (fs w) file2 = false →
  ∃ w' path checked,
    main loads dumps file1 file2 output w = (Exit 1, w')
    ∧ (1 ≠ 0)%Z
    ∧ (path = file1 ∨ path = file2)
    ∧ is_regular (fs w) path = false
    ∧ stderr w' = stderr w ++ [missing_msg path]
    ∧ stdout w' = stdout w
    ∧ fs w' = fs w
    ∧ log w' = log w ++ (EvIsFile <$> checked).
Proof.
  intros Hmissing.
  assert (main loads dumps file1 file2 output w
          = match validate [file1; file2] w with
            | (Return _, _) => main loads dumps file1 file2 output w
            | (Exit code, w') => (Exit code, w')
            | (Raise e, w') => (Raise e, w')
            end) as Hmain.
  { unfold main, compare_json, mbind, io_bind.
    by destruct (validate [file1; file2] w) as [[u|code|e] w']. }
  rewrite Hmain, validate_two. clear Hmain.
  destruct (is_regular (fs w) file1) eqn:H1.
  - destruct Hmissing as [?|H2]; [done|]. rewrite H2.
    eexists _, file2, [file1; file2]. simpl. by repeat split; auto.
  - eexists _, file1, [file1]. simpl. by repeat split; auto.
Qed.

Lemma missing_input_exits_witness :
  (is_regular (fs toy_world) "old/f.json" = false
   ∨ is_regular (fs toy_world) "new" = false)
  ∧ ∃ w', main toy_loads toy_dumps "old/f.json" "new" "differences.json"
            toy_world = (Exit 1, w')
          ∧ fs w' = fs toy_world.
Proof.
  split; [right; reflexivity|].
  destruct (missing_input_exits toy_loads toy_dumps
              "old/f.json" "new" "differences.json" toy_world)
    as (w' & path & checked & Hrun & _ & _ & _ & _ & _ & Hfs & _).
  - right. reflexivity.
  - exists w'. split; [exact Hrun|exact Hfs].
Defined.

(** What a run of [compare_json] that returns has read and computed. *)
Lemma compare_json_returns (loads : string → option json)
    (file1 file2 : string) (w w' : world) (r : gmap string field) :
  compare_json loads file1 file2 w = (Return r, w') →
  ∃ text1 text2 data1 data2 c,
    fs w !! file1 = Some (File text1) ∧ loads text1 = Some data1
    ∧ fs w !! file2 = Some (File text2) ∧ loads text2 = Some data2
    ∧ compare_docs data1 data2 = Some c
    ∧ r = report_dict (basename file1) (basename file2) c.
Proof.
  unfold compare_json, mbind, io_bind. rewrite validate_two.
  destruct (is_regular (fs w) file1); [|done].
  destruct (is_regular (fs w) file2); [|done].
  unfold read_file, json_load, record, raise, mret, io_ret. simpl.
  destruct (fs w !! file1) as [[text1|]|] eqn:H1; simpl; try done.
  destruct (loads text1) as [data1|] eqn:L1; simpl; try done.
  destruct (fs w !! file2) as [[text2|]|] eqn:H2; simpl; try done.
  destruct (loads text2) as [data2|] eqn:L2; simpl; try done.
  destruct (compare_flat (flatten_json data1 "" ".")
              (flatten_json data2 "" ".")) as [c|] eqn:Hc; simpl; try done.
  intros [= <- _]. by exists text1, text2, data1, data2, c.
Qed.

Lemma only_in_fresh b :
  "only_in_" +:+ b ≠ "differing_values"
  ∧ "only_in_" +:+ b ≠ "in_both_identical".
Proof. split; intros H; by inversion H. Qed.

(** C10: when the two paths have the same basename, the report that
    [compare_json] returns has three fields; its one [only_in_<basename>]
    field holds the paths found only in file B, and every entry of
    [differing_values] has under the basename the value of file B and no
    field for the value of file A. *)
Theorem same_basename_collides (loads : string → option json)
    (file1 file2 : string) (w w' : world) (r : gmap string field) :
  basename file1 = basename file2 →
  compare_json loads file1 file2 w = (Return r, w') →
  ∃ text1 text2 data1 data2 c,
    fs w !! file1 = Some (File text1) ∧ loads text1 = Some data1
    ∧ fs w !! file2 = Some (File text2) ∧ loads text2 = Some data2
    ∧ compare_docs data1 data2 = Some c
    ∧ dom r = {[ "only_in_" +:+ basename file1;
                 "differing_values"; "in_both_identical" ]}
    ∧ r !! ("only_in_" +:+ basename file1) = Some (Paths (only2 c))
    ∧ only2 c = sorted (dom (flatten_json data2 "" ".")
                        ∖ dom (flatten_json data1 "" "."))
    ∧ ∃ entries,
        r !! "differing_values" = Some (Diffs entries)
        ∧ length entries = length (diffs c)
        ∧ ∀ i d, diffs c !! i = Some d →
            ∃ e, entries !! i = Some e
              ∧ e !! basename file1 = Some (value2 d)
              ∧ flatten_json data2 "" "." !! key d = Some (value2 d)
              ∧ dom e = {[ "key"; basename file1 ]}.
Proof.
  intros Hb Hrun.
  destruct (compare_json_returns _ _ _ _ _ _ Hrun)
    as (text1 & text2 & data1 & data2 & c & H1 & L1 & H2 & L2 & Hc & ->).
  exists text1, text2, data1, data2, c.
  do 5 (split; [done|]).
  rewrite <-Hb. set (b := basename file1).
  destruct (only_in_fresh b) as [Hd Hi].
  unfold compare_docs in Hc. rewrite compare_flat_spec in Hc.
  injection Hc as <-. cbn [only2 diffs].
  unfold report_dict. cbn [only1 only2 diffs in_both].
  rewrite insert_insert_eq. split; [|split; [|split]].
  - rewrite !dom_insert_L, dom_empty_L. apply set_eq. intros k.
    rewrite !elem_of_union, !elem_of_singleton, elem_of_empty. tauto.
  - rewrite lookup_insert_ne by done. rewrite lookup_insert_ne by done.
    apply lookup_insert_eq.
  - done.
  - eexists. split; [|split].
    + rewrite lookup_insert_ne by done. apply lookup_insert_eq.
    + by rewrite !length_fmap.
    + intros i d Hi'. exists (diff_dict b b d). split; [|split; [|split]].
      * by rewrite list_lookup_fmap, Hi'.
      * unfold diff_dict. apply lookup_insert_eq.
      * apply list_lookup_fmap_Some in Hi' as (k & -> & Hk).
        apply list_elem_of_lookup_2, list_elem_of_filter in Hk as [_ Hk].
        apply elem_of_sorted, elem_of_intersection in Hk as [_ Hk].
        apply elem_of_dom in Hk as [v Hv]. simpl.
        by rewrite (lookup_total_correct _ _ _ Hv).
      * unfold diff_dict. rewrite insert_insert_eq.
        rewrite !dom_insert_L, dom_empty_L. apply set_eq. intros k.
        rewrite !elem_of_union, !elem_of_singleton, elem_of_empty. tauto.
Qed.

Lemma same_basename_collides_witness :
  basename "old/f.json" = basename "new/f.json"
  ∧ ∃ r w',
      compare_json toy_loads "old/f.json" "new/f.json" toy_world
      = (Return r, w')
      ∧ dom r = {[ "only_in_" +:+ basename "old/f.json";
                   "differing_values"; "in_both_identical" ]}.
Proof.
  split; [reflexivity|].
  set (r := report_dict "f.json" "f.json"
              (Comparison [] [] [Diff "" (SInt 1) (SInt 2)] [])).
  set (w' := World (fs toy_world) [] []
               [EvIsFile "old/f.json"; EvIsFile "new/f.json";
                EvOpenRead "old/f.json"; EvLoad "1";
                EvOpenRead "new/f.json"; EvLoad "2"]).
  assert (compare_json toy_loads "old/f.json" "new/f.json" toy_world
          = (Return r, w')) as Hrun by (vm_compute; reflexivity).
  exists r, w'. split; [exact Hrun|].
  destruct (same_basename_collides toy_loads "old/f.json" "new/f.json"
              toy_world w' r eq_refl Hrun)
    as (? & ? & ? & ? & ? & _ & _ & _ & _ & _ & Hdom & _).
  exact Hdom.
Defined.

(** ** The scenarios of the specification *)

Example scenario_1 :
  compare_docs
    (JDict [("a", JScalar (SInt 1)); ("b", JDict [("c", JScalar (SInt 2))])])
    (JDict [("a", JScalar (SInt 1)); ("b", JDict [("c", JScalar (SInt 3))])])
  = Some (Comparison [] [] [Diff "b.c" (SInt 2) (SInt 3)] ["a"]).
Proof. by vm_compute. Qed.

Example scenario_2 :
  compare_docs
    (JDict [("x", JList [JScalar (SInt 1); JScalar (SInt 2)])])
    (JDict [("x", JList [JScalar (SInt 1); JScalar (SInt 2);
                         JScalar (SInt 3)])])
  = Some (Comparison [] ["x.2"] [] ["x.0"; "x.1"]).
Proof. by vm_compute. Qed.

Example scenario_3 :
  compare_docs (JDict []) (JDict [("k", JScalar SNull)])
  = Some (Comparison [] ["k"] [] []).
Proof. by vm_compute. Qed.

Example basename_examples :
  basename "/x/y/z.json" = "z.json" ∧ basename "z.json" = "z.json"
  ∧ basename "a/" = "" ∧ basename "" = "".
Proof. by vm_compute. Qed.

Example str_examples : str 0 = "0" ∧ str 7 = "7" ∧ str 120 = "120".
Proof. by vm_compute. Qed.

Example int_float_examples :
  py_eq (SInt 1) (SFloat (S754_finite false 4503599627370496 (-52))) = true
  ∧ py_eq (SInt 3) (SFloat (S754_finite false 6755399441055744 (-51))) = true
  ∧ py_eq (SInt 1) (SFloat (S754_finite false 4503599627370497 (-52))) = false
  ∧ py_eq (SBool false) (SFloat (S754_zero true)) = true
  ∧ py_eq (SFloat (S754_zero false)) (SFloat (S754_zero true)) = true
  ∧ py_eq (SFloat S754_nan) (SFloat S754_nan) = false
  ∧ py_eq (SBool true) (SInt 1) = true
  ∧ py_eq SNull (SBool false) = false
  ∧ py_eq (SStr "1") (SInt 1) = false.
Proof. by vm_compute. Qed.

Example too_few_frames :
  flatten_json_frames 3 plain_doc "" "." = None
  ∧ depth plain_doc = 3.
Proof. by vm_compute. Qed.

Example toy_run :
  main toy_loads toy_dumps "old/f.json" "new/f.json" "out.json" toy_world
  = (Return (),
     World (<["out.json" := File "{...}"]> (fs toy_world))
       ["Differences (including value diffs) written to out.json"] []
       [EvIsFile "old/f.json"; EvIsFile "new/f.json";
        EvOpenRead "old/f.json"; EvLoad "1";
        EvOpenRead "new/f.json"; EvLoad "2"; EvOpenWrite "out.json"]).
Proof. by vm_compute. Qed.

(** ** More on the flattener *)

Lemma assign_all_last (l1 l2 : list (string * scalar)) p v :
  p ∉ l2.*1 → assign_all (l1 ++ (p, v) :: l2) !! p = Some v.
Proof.
  intros Hp.
  rewrite assign_all_app, (assign_all_app [(p, v)] l2 : assign_all ((p, v) :: l2) = _).
  apply lookup_union_Some_l. rewrite lookup_union_r.
  - unfold assign_all. simpl. apply lookup_insert_eq.
  - unfold assign_all. apply not_elem_of_list_to_map_1.
    by rewrite fmap_reverse, elem_of_reverse.
Qed.

(** X1: the flat view holds exactly the paths of the leaves met by the
    traversal, every value in it is the value of a leaf with that path, and
    when several leaves share a path the one met last is the one kept. *)
Theorem flatten_last_wins (d : json) (pk sep : string) :
  (∀ p, p ∈ dom (flatten_json d pk sep) ↔ p ∈ (leaves d pk sep).*1)
  ∧ (∀ p v, flatten_json d pk sep !! p = Some v → (p, v) ∈ leaves d pk sep)
  ∧ (∀ l1 p v l2,
       leaves d pk sep = l1 ++ (p, v) :: l2 → p ∉ l2.*1 →
       flatten_json d pk sep !! p = Some v).
Proof.
  split; [|split].
  - intros p. by rewrite flatten_json_dom, elem_of_list_to_set.
  - intros p v Hp. rewrite flatten_json_leaves in Hp.
    apply elem_of_list_to_map_2 in Hp. by rewrite elem_of_reverse in Hp.
  - intros l1 p v l2 Hl Hp. rewrite flatten_json_leaves, Hl.
    by apply assign_all_last.
Qed.

Lemma flatten_last_wins_witness :
  leaves dotted_key_doc "" "." = [] ++ ("a.b", SInt 1) :: [("a.b", SInt 2)]
  ∧ flatten_json dotted_key_doc "" "." !! "a.b" = Some (SInt 2).
Proof.
  split; [reflexivity|].
  destruct (flatten_last_wins dotted_key_doc "" ".") as (_ & _ & Hlast).
  apply (Hlast [("a.b", SInt 1)] "a.b" (SInt 2) []).
  - reflexivity.
  - simpl. apply not_elem_of_nil.
Defined.

Lemma leaves_list_prefix pk sep l :
  Forall (λ v, ∀ pk', pk' ≠ "" →
               Forall (λ pv, ∃ x, pv.1 = pk' +:+ x) (leaves v pk' sep)) l →
  pk ≠ "" →
  ∀ i, Forall (λ pv, ∃ x, pv.1 = pk +:+ x) (leaves_list pk sep i l).
Proof.
  intros Hall Hpk. induction Hall as [|v l Hv _ IH]; intros i; simpl;
    [constructor|].
  apply Forall_app. split; [|apply IH].
  destruct pk as [|a pk]; [done|].
  eapply Forall_impl; [apply Hv; by unfold new_key|].
  intros pv [x ->]. exists (sep +:+ str i +:+ x).
  unfold new_key. simpl truthy. cbv iota. by rewrite !app_assoc_s.
Qed.

Lemma leaves_dict_prefix pk sep kvs :
  Forall (λ kv, ∀ pk', pk' ≠ "" →
                Forall (λ pv, ∃ x, pv.1 = pk' +:+ x) (leaves kv.2 pk' sep))
         kvs →
  pk ≠ "" →
  Forall (λ pv, ∃ x, pv.1 = pk +:+ x) (leaves_dict pk sep kvs).
Proof.
  intros Hall Hpk. induction Hall as [|kv kvs Hkv _ IH]; simpl;
    [constructor|].
  apply Forall_app. split; [|apply IH].
  destruct pk as [|a pk]; [done|].
  eapply Forall_impl; [apply Hkv; by unfold new_key|].
  intros pv [x ->]. exists (sep +:+ kv.1 +:+ x).
  unfold new_key. simpl truthy. cbv iota. by rewrite !app_assoc_s.
Qed.

Lemma leaves_prefix d sep :
  ∀ pk, pk ≠ "" →
        Forall (λ pv, ∃ x, pv.1 = pk +:+ x) (leaves d pk sep).
Proof.
  induction d as [s|l IH|kvs IH] using json_ind'; intros pk Hpk.
  - simpl. constructor; [|constructor]. exists "". simpl.
    by rewrite app_nil_r_s.
  - rewrite leaves_list_eq. by apply leaves_list_prefix.
  - rewrite leaves_dict_eq. by apply leaves_dict_prefix.
Qed.

(** X2: under a non-empty prefix every path that [flatten_json] records
    starts with that prefix, whatever the keys and the separator are. *)
Theorem flatten_keeps_prefix (d : json) (pk sep p : string) (v : scalar) :
  pk ≠ "" →
  flatten_json d pk sep !! p = Some v →
  ∃ x, p = pk +:+ x.
Proof.
  intros Hpk Hp. rewrite flatten_json_leaves in Hp.
  apply elem_of_list_to_map_2 in Hp. rewrite elem_of_reverse in Hp.
  apply (proj1 (Forall_forall _ _) (leaves_prefix d sep pk Hpk) _ Hp).
Qed.

Lemma flatten_keeps_prefix_witness :
  "cfg" ≠ ""
  ∧ flatten_json plain_doc "cfg" "/" !! "cfg/x/1/y" = Some SNull
  ∧ ∃ x, "cfg/x/1/y" = "cfg" +:+ x.
Proof.
  split; [discriminate|]. split; [by vm_compute|].
  apply (flatten_keeps_prefix plain_doc "cfg" "/" "cfg/x/1/y" SNull).
  - discriminate.
  - by vm_compute.
Defined.

Lemma flatten_list_as_dict pk sep l :
  ∀ i items,
    flatten_list pk sep i l items
    = flatten_dict pk sep (imap (λ j v, (str (i + j), v)) l) items.
Proof.
  induction l as [|v l IH]; intros i items; simpl; [done|].
  rewrite Nat.add_0_r, IH. f_equal. apply imap_ext.
  intros j w _. simpl. by rewrite Nat.add_succ_r.
Qed.

(** X3: a sequence flattens exactly as the mapping from its indices,
    written in decimal, to its elements: after flattening, [[a, b]] and
    [{"0": a, "1": b}] cannot be told apart. *)
Theorem flatten_list_is_index_dict (l : list json) (pk sep : string) :
  flatten_json (JList l) pk sep = flatten_json (JDict (index_dict l)) pk sep.
Proof.
  rewrite flatten_json_list, flatten_json_dict.
  apply flatten_list_as_dict.
Qed.

Lemma flatten_dict_items pk sep kvs items :
  flatten_dict pk sep kvs items = flatten_dict pk sep kvs ∅ ∪ items.
Proof.
  assert (Forall (λ kv, ∀ pk', flatten_json kv.2 pk' sep
                               = assign_all (leaves kv.2 pk' sep)) kvs) as H.
  { apply Forall_forall. intros kv _ pk'. apply flatten_json_leaves. }
  rewrite !(flatten_dict_leaves _ _ _ H). by rewrite (right_id_L ∅ (∪)).
Qed.

Lemma flatten_dict_cons pk sep kv kvs items :
  flatten_dict pk sep (kv :: kvs) items
  = flatten_dict pk sep kvs
      (flatten_json kv.2 (new_key pk sep kv.1) sep ∪ items).
Proof. done. Qed.

(** X4: a mapping under the empty key at the top level is spliced into the
    top level: its members get the paths they would have as members of the
    document itself, because the empty prefix and the empty key give the
    empty prefix again. *)
Theorem flatten_empty_key_spliced
    (kvs1 inner kvs2 : list (string * json)) (sep : string) :
  flatten_json (JDict (kvs1 ++ ("", JDict inner) :: kvs2)) "" sep
  = flatten_json (JDict (kvs1 ++ inner ++ kvs2)) "" sep.
Proof.
  rewrite !flatten_json_dict, !flatten_dict_app, flatten_dict_cons.
  cbn [fst snd]. change (new_key "" sep "") with "".
  rewrite flatten_json_dict. f_equal.
  by rewrite (flatten_dict_items _ _ inner (flatten_dict _ _ kvs1 ∅)).
Qed.

Lemma leaves_dict_Permutation pk sep kvs kvs' :
  kvs ≡ₚ kvs' → leaves_dict pk sep kvs ≡ₚ leaves_dict pk sep kvs'.
Proof.
  induction 1 as [|kv kvs kvs' _ IH|kv1 kv2 kvs|kvs1 kvs2 kvs3 _ IH1 _ IH2];
    simpl.
  - done.
  - by rewrite IH.
  - by rewrite !(assoc (++)), (comm (++) (leaves kv2.2 _ _)).
  - by rewrite IH1.
Qed.

(** X5: when every key of a well-formed mapping is non-empty and free of the
    separator character, the order of its members does not matter to
    [flatten_json]. *)
Theorem flatten_key_order_irrelevant (c : ascii)
    (kvs kvs' : list (string * json)) (pk : string) :
  Ascii.is_nat c = None →
  wf (JDict kvs) →
  keys_ok c (JDict kvs) = true →
  kvs ≡ₚ kvs' →
  flatten_json (JDict kvs) pk (String c "")
  = flatten_json (JDict kvs') pk (String c "").
Proof.
  intros Hc Hwf Hok Hperm.
  destruct (leaves_distinct c Hc _ Hok Hwf pk) as [Hnd _].
  rewrite !flatten_json_leaves, !leaves_dict_eq in *.
  pose proof (leaves_dict_Permutation pk (String c "") _ _ Hperm) as Hl.
  rewrite !assign_all_NoDup; [|by rewrite <-Hl|done].
  by apply list_to_map_proper.
Qed.

Lemma flatten_key_order_irrelevant_witness :
  flatten_json (JDict [("a", JScalar (SInt 1)); ("b", JList [JScalar SNull])])
    "" "."
  = flatten_json (JDict [("b", JList [JScalar SNull]); ("a", JScalar (SInt 1))])
      "" ".".
Proof.
  apply (flatten_key_order_irrelevant "."
           [("a", JScalar (SInt 1)); ("b", JList [JScalar SNull])]
           [("b", JList [JScalar SNull]); ("a", JScalar (SInt 1))] "").
  - reflexivity.
  - simpl. repeat split; apply (bool_decide_unpack _); by vm_compute.
  - reflexivity.
  - apply perm_swap.
Defined.

(** ** More on the comparison *)

Lemma SFeqb_sym f g : SFeqb f g = SFeqb g f.
Proof.
  unfold SFeqb.
  destruct f as [s1|s1| |s1 m1 e1], g as [s2|s2| |s2 m2 e2]; simpl;
    try done; try (by destruct s1); try (by destruct s2);
    try (by destruct s1, s2).
  rewrite (Z.compare_antisym e1 e2), !Pos.compare_cont_spec.
  rewrite (Pos.compare_antisym m1 m2). simpl.
  by destruct s1, s2, (e1 ?= e2)%Z, (m1 ?= m2)%positive.
Qed.

Lemma py_eq_sym a b : py_eq a b = py_eq b a.
Proof.
  destruct a as [|b1|n1|f1|s1], b as [|b2|n2|f2|s2]; simpl; try done;
    try apply Z.eqb_sym; try apply SFeqb_sym.
  apply bool_decide_ext. split; by intros ->.
Qed.

Lemma same_at_sym flat1 flat2 k : same_at flat1 flat2 k = same_at flat2 flat1 k.
Proof.
  unfold same_at. destruct (flat1 !! k), (flat2 !! k); try done.
  apply py_eq_sym.
Qed.

Lemma filter_same_sym (flat1 flat2 : gmap string scalar) (l : list string) :
  filter (λ k, same_at flat1 flat2 k) l = filter (λ k, same_at flat2 flat1 k) l
  ∧ filter (λ k, ¬ same_at flat1 flat2 k) l
    = filter (λ k, ¬ same_at flat2 flat1 k) l.
Proof.
  split; apply list_filter_iff; intros k; by rewrite same_at_sym.
Qed.

(** X6: exchanging the two flat views exchanges the two only-in lists and
    the two values of every [diffs] entry, and changes nothing else: the
    same paths are reported as differing and as identical, in the same
    order. *)
Theorem compare_flat_swap (flat1 flat2 : gmap string scalar) :
  compare_flat flat2 flat1 = flip_comparison <$> compare_flat flat1 flat2.
Proof.
  rewrite !compare_flat_spec. cbn zeta. simpl. unfold flip_comparison. simpl.
  assert (dom flat2 ∩ dom flat1 = dom flat1 ∩ dom flat2) as ->
    by (apply set_eq; intros k; rewrite !elem_of_intersection; tauto).
  destruct (filter_same_sym flat1 flat2
              (sorted (dom flat1 ∩ dom flat2))) as [-> ->].
  do 2 f_equal. rewrite <-list_fmap_compose. by apply list_fmap_ext.
Qed.

Lemma sorted_nil_iff (X : gset string) : sorted X = [] ↔ X = ∅.
Proof.
  split.
  - intros H. apply leibniz_equiv, size_empty_inv.
    by rewrite <-sorted_length, H.
  - intros ->. apply sorted_empty.
Qed.

(** X7: the report shows no difference, with both only-in lists and
    [differing_values] empty, exactly when the two flat views have the same
    paths and hold equal values, for Python's [==], at each of them. *)
Theorem compare_no_difference (flat1 flat2 : gmap string scalar) :
  ∃ c, compare_flat flat1 flat2 = Some c ∧
    ((only1 c = [] ∧ only2 c = [] ∧ diffs c = [])
     ↔ (dom flat1 = dom flat2
        ∧ ∀ k v1 v2, flat1 !! k = Some v1 → flat2 !! k = Some v2 →
                     py_eq v1 v2 = true)).
Proof.
  eexists. split; [apply compare_flat_spec|]. cbn zeta. simpl.
  rewrite !sorted_nil_iff.
  set (both := sorted (dom flat1 ∩ dom flat2)).
  assert (∀ l : list string, diff_at flat1 flat2 <$> l = [] ↔ l = [])
    as ->.
  { intros l. split; [apply fmap_nil_inv|by intros ->]. }
  assert (filter (λ k, ¬ same_at flat1 flat2 k) both = []
          ↔ ∀ k v1 v2, flat1 !! k = Some v1 → flat2 !! k = Some v2 →
                       py_eq v1 v2 = true) as ->.
  { split.
    - intros Hnil k v1 v2 H1 H2.
      destruct (py_eq v1 v2) eqn:Heq; [done|].
      assert (k ∈ filter (λ k, ¬ same_at flat1 flat2 k) both) as Hin.
      { apply list_elem_of_filter. split.
        - rewrite (same_at_lookup _ _ _ _ _ H1 H2), Heq. cbv. tauto.
        - apply elem_of_sorted, elem_of_intersection.
          by rewrite !elem_of_dom, H1, H2. }
      rewrite Hnil in Hin. by apply elem_of_nil in Hin.
    - intros Hall. apply elem_of_nil_inv. intros k.
      rewrite list_elem_of_filter. intros [Hne Hk]. apply Hne.
      apply elem_of_sorted, elem_of_intersection in Hk as [H1 H2].
      apply elem_of_dom in H1 as [v1 H1]. apply elem_of_dom in H2 as [v2 H2].
      rewrite (same_at_lookup _ _ _ _ _ H1 H2), (Hall _ _ _ H1 H2). done. }
  split.
  - intros (H1 & H2 & H3). split; [|done].
    apply set_eq. intros k. split; intros Hk.
    + destruct (decide (k ∈ dom flat2)) as [|Hn]; [done|].
      assert (k ∈ dom flat1 ∖ dom flat2) as Hd
        by (apply elem_of_difference; done).
      rewrite H1 in Hd. by apply elem_of_empty in Hd.
    + destruct (decide (k ∈ dom flat1)) as [|Hn]; [done|].
      assert (k ∈ dom flat2 ∖ dom flat1) as Hd
        by (apply elem_of_difference; done).
      rewrite H2 in Hd. by apply elem_of_empty in Hd.
  - intros [Hdom Hall]. rewrite Hdom. repeat split; [..|done];
      apply set_eq; intros k; rewrite elem_of_difference, elem_of_empty; tauto.
Qed.

(** ** More on [main] *)

(** [main], step by step. *)
Lemma main_run (loads : string → option json)
    (dumps : gmap string field → string)
    (file1 file2 output : string) (w : world) :
  main loads dumps file1 file2 output w
  = if negb (is_regular (fs w) file1)
    then (Exit 1,
          World (fs w) (stdout w) (stderr w ++ [missing_msg file1])
            (log w ++ [EvIsFile file1]))
    else if negb (is_regular (fs w) file2)
    then (Exit 1,
          World (fs w) (stdout w) (stderr w ++ [missing_msg file2])
            (log w ++ [EvIsFile file1; EvIsFile file2]))
    else
      let stopped e evs :=
        (Raise e,
         World (fs w) (stdout w) (stderr w)
           (log w ++ [EvIsFile file1; EvIsFile file2] ++ evs)) in
      match fs w !! file1 with
      | Some (File text1) =>
          match loads text1 with
          | Some data1 =>
              match fs w !! file2 with
              | Some (File text2) =>
                  match loads text2 with
                  | Some data2 =>
                      match compare_docs data1 data2 with
                      | Some c =>
                          let evs :=
                            [EvOpenRead file1; EvLoad text1;
                             EvOpenRead file2; EvLoad text2;
                             EvOpenWrite output] in
                          let report :=
                            report_dict (basename file1) (basename file2) c in
                          match fs w !! output with
                          | Some Dir => stopped (OSError output) evs
                          | _ =>
                              (Return (),
                               World (<[output := File (dumps report)]> (fs w))
                                 (stdout w ++ [written_msg output]) (stderr w)
                                 (log w ++ [EvIsFile file1; EvIsFile file2]
                                    ++ evs))
                          end
                      | None =>
                          stopped KeyError
                            [EvOpenRead file1; EvLoad text1;
                             EvOpenRead file2; EvLoad text2]
                      end
                  | None =>
                      stopped JSONDecodeError
                        [EvOpenRead file1; EvLoad text1;
                         EvOpenRead file2; EvLoad text2]
                  end
              | _ =>
                  stopped (OSError file2)
                    [EvOpenRead file1; EvLoad text1; EvOpenRead file2]
              end
          | None => stopped JSONDecodeError [EvOpenRead file1; EvLoad text1]
          end
      | _ => stopped (OSError file1) [EvOpenRead file1]
      end.
Proof.
  unfold main, compare_json, mbind, io_bind. rewrite validate_two.
  destruct (is_regular (fs w) file1); [|done].
  destruct (is_regular (fs w) file2); [|done].
  cbn [negb]. cbv zeta.
  unfold read_file, json_load, write_file, print, record, raise, mret, io_ret,
    compare_docs, written_msg.
  cbn [fs stdout stderr log].
  destruct (fs w !! file1) as [[text1|]|];
    [|by rewrite <-?(assoc_L (++))..].
  destruct (loads text1) as [data1|]; cbn [fs stdout stderr log];
    [|by rewrite <-?(assoc_L (++))].
  destruct (fs w !! file2) as [[text2|]|]; cbn [fs stdout stderr log];
    [|by rewrite <-?(assoc_L (++))..].
  destruct (loads text2) as [data2|]; cbn [fs stdout stderr log];
    [|by rewrite <-?(assoc_L (++))].
  destruct (compare_flat (flatten_json data1 "" ".")
              (flatten_json data2 "" ".")) as [c|];
    cbn [fs stdout stderr log]; [|by rewrite <-?(assoc_L (++))].
  destruct (fs w !! output) as [[content|]|]; cbn [fs stdout stderr log];
    by rewrite <-?(assoc_L (++)).
Qed.


(** X8: whatever way a run of [main] ends, no path of the file system other
    than the output path is changed. *)
Theorem main_touches_only_output (loads : string → option json)
    (dumps : gmap string field → string)
    (file1 file2 output : string) (w : world) (p : string) :
  p ≠ output →
  fs (main loads dumps file1 file2 output w).2 !! p = fs w !! p.
Proof.
  intros Hp. rewrite main_run.
  repeat case_match; cbn [snd fs]; try done;
    by rewrite lookup_insert_ne.
Qed.

Lemma main_touches_only_output_witness :
  "old/f.json" ≠ "out.json"
  ∧ fs (main toy_loads toy_dumps "old/f.json" "new/f.json" "out.json"
          toy_world).2 !! "old/f.json"
    = fs toy_world !! "old/f.json".
Proof.
  split; [discriminate|].
  apply (main_touches_only_output toy_loads toy_dumps
           "old/f.json" "new/f.json" "out.json" toy_world "old/f.json").
  discriminate.
Defined.


(** X10: when [main] returns, both input paths were regular files whose
    texts parsed; the output path now holds the dump of the report of their
    comparison; the confirmation line is the only thing printed; and the
    calls made are, in this order, the two [isfile] checks, opening and
    parsing the first file, opening and parsing the second, and opening the
    output. *)
Theorem main_returns (loads : string → option json)
    (dumps : gmap string field → string)
    (file1 file2 output : string) (w w' : world) :
  main loads dumps file1 file2 output w = (Return (), w') →
  ∃ text1 text2 data1 data2 c,
    fs w !! file1 = Some (File text1) ∧ loads text1 = Some data1
    ∧ fs w !! file2 = Some (File text2) ∧ loads text2 = Some data2
    ∧ compare_docs data1 data2 = Some c
    ∧ fs w !! output ≠ Some Dir
    ∧ fs w' = <[output := File (dumps (report_dict (basename file1)
                                         (basename file2) c))]> (fs w)
    ∧ stdout w' = stdout w ++ [written_msg output]
    ∧ stderr w' = stderr w
    ∧ log w' = log w ++ [EvIsFile file1; EvIsFile file2;
                         EvOpenRead file1; EvLoad text1;
                         EvOpenRead file2; EvLoad text2;
                         EvOpenWrite output].
Proof.
  rewrite main_run.
  destruct (is_regular (fs w) file1); [|done].
  destruct (is_regular (fs w) file2); [|done].
  cbn [negb]. cbv zeta.
  destruct (fs w !! file1) as [[text1|]|]; try done.
  destruct (loads text1) as [data1|] eqn:L1; try done.
  destruct (fs w !! file2) as [[text2|]|]; try done.
  destruct (loads text2) as [data2|] eqn:L2; try done.
  destruct (compare_docs data1 data2) as [c|] eqn:Hc; try done.
  destruct (fs w !! output) as [[content|]|] eqn:Hout; try done;
    intros [= <-]; exists text1, text2, data1, data2, c; by repeat split.
Qed.

Lemma main_returns_witness :
  ∃ w',
    main toy_loads toy_dumps "old/f.json" "new/f.json" "out.json" toy_world
    = (Return (), w')
    ∧ stdout w' = stdout toy_world ++ [written_msg "out.json"].
Proof.
  set (w' := World (<["out.json" := File "{...}"]> (fs toy_world))
               ["Differences (including value diffs) written to out.json"] []
               [EvIsFile "old/f.json"; EvIsFile "new/f.json";
                EvOpenRead "old/f.json"; EvLoad "1";
                EvOpenRead "new/f.json"; EvLoad "2"; EvOpenWrite "out.json"]).
  assert (main toy_loads toy_dumps "old/f.json" "new/f.json" "out.json"
            toy_world = (Return (), w')) as Hrun by (vm_compute; reflexivity).
  exists w'. split; [exact Hrun|].
  destruct (main_returns _ _ _ _ _ _ _ Hrun)
    as (? & ? & ? & ? & ? & _ & _ & _ & _ & _ & _ & _ & Hout & _).
  exact Hout.
Defined.

(** X11: when both paths are regular files and the text of the first is not
    valid JSON, [main] ends with the parser's exception right after parsing
    the first file: the second file is never opened, nothing is printed and
    the file system is as it was. *)
Theorem malformed_first_file (loads : string → option json)
    (dumps : gmap string field → string)
    (file1 file2 output text1 : string) (w : world) :
  fs w !! file1 = Some (File text1) →
  is_regular (fs w) file2 = true →
  loads text1 = None →
  main loads dumps file1 file2 output w
  = (Raise JSONDecodeError,
     World (fs w) (stdout w) (stderr w)
       (log w ++ [EvIsFile file1; EvIsFile file2;
                  EvOpenRead file1; EvLoad text1])).
Proof.
  intros H1 H2 L1. rewrite main_run.
  unfold is_regular at 1. by rewrite H1, H2, L1.
Qed.

Lemma malformed_first_file_witness :
  main toy_loads toy_dumps "bad.json" "new/f.json" "out.json"
    (World (<["bad.json" := File "{oops"]> (fs toy_world)) [] [] [])
  = (Raise JSONDecodeError,
     World (<["bad.json" := File "{oops"]> (fs toy_world)) [] []
       [EvIsFile "bad.json"; EvIsFile "new/f.json";
        EvOpenRead "bad.json"; EvLoad "{oops"]).
Proof.
  exact (malformed_first_file toy_loads toy_dumps "bad.json" "new/f.json"
           "out.json" "{oops"
           (World (<["bad.json" := File "{oops"]> (fs toy_world)) [] [] [])
           eq_refl eq_refl eq_refl).
Defined.

(** X12: when both paths are regular files, the first parses and the text of
    the second is not valid JSON, [main] ends with the parser's exception
    after reading both files: the output is never opened, nothing is printed
    and the file system is as it was. *)
Theorem malformed_second_file (loads : string → option json)
    (dumps : gmap string field → string)
    (file1 file2 output text1 text2 : string) (data1 : json) (w : world) :
  fs w !! file1 = Some (File text1) →
  loads text1 = Some data1 →
  fs w !! file2 = Some (File text2) →
  loads text2 = None →
  main loads dumps file1 file2 output w
  = (Raise JSONDecodeError,
     World (fs w) (stdout w) (stderr w)
       (log w ++ [EvIsFile file1; EvIsFile file2;
                  EvOpenRead file1; EvLoad text1;
                  EvOpenRead file2; EvLoad text2])).
Proof.
  intros H1 L1 H2 L2. rewrite main_run.
  unfold is_regular. by rewrite H1, H2, L1, L2.
Qed.

Lemma malformed_second_file_witness :
  main toy_loads toy_dumps "old/f.json" "bad.json" "out.json"
    (World (<["bad.json" := File "{oops"]> (fs toy_world)) [] [] [])
  = (Raise JSONDecodeError,
     World (<["bad.json" := File "{oops"]> (fs toy_world)) [] []
       [EvIsFile "old/f.json"; EvIsFile "bad.json";
        EvOpenRead "old/f.json"; EvLoad "1";
        EvOpenRead "bad.json"; EvLoad "{oops"]).
Proof.
  exact (malformed_second_file toy_loads toy_dumps "old/f.json" "bad.json"
           "out.json" "1" "{oops" (JScalar (SInt 1))
           (World (<["bad.json" := File "{oops"]> (fs toy_world)) [] [] [])
           eq_refl eq_refl eq_refl eq_refl).
Defined.

(** ** More on the report *)

Lemma only_in_inj b1 b2 : "only_in_" +:+ b1 = "only_in_" +:+ b2 → b1 = b2.
Proof. apply (inj (String.app _)). Qed.

(** X13: when the two basenames differ and neither is ["key"], the report
    that [compare_json] returns has its four fields, each only-in field
    holding the list of its own file, and every entry of
    [differing_values] has three fields: the path under ["key"] and the
    two values under the two basenames. *)
Theorem report_shape (loads : string → option json)
    (file1 file2 : string) (w w' : world) (r : gmap string field) :
  basename file1 ≠ basename file2 →
  basename file1 ≠ "key" →
  basename file2 ≠ "key" →
  compare_json loads file1 file2 w = (Return r, w') →
  ∃ text1 text2 data1 data2 c,
    fs w !! file1 = Some (File text1) ∧ loads text1 = Some data1
    ∧ fs w !! file2 = Some (File text2) ∧ loads text2 = Some data2
    ∧ compare_docs data1 data2 = Some c
    ∧ dom r = {[ "only_in_" +:+ basename file1;
                 "only_in_" +:+ basename file2;
                 "differing_values"; "in_both_identical" ]}
    ∧ r !! ("only_in_" +:+ basename file1) = Some (Paths (only1 c))
    ∧ r !! ("only_in_" +:+ basename file2) = Some (Paths (only2 c))
    ∧ r !! "in_both_identical" = Some (Paths (in_both c))
    ∧ ∃ entries,
        r !! "differing_values" = Some (Diffs entries)
        ∧ length entries = length (diffs c)
        ∧ ∀ i d, diffs c !! i = Some d →
            ∃ e, entries !! i = Some e
              ∧ e !! "key" = Some (SStr (key d))
              ∧ e !! basename file1 = Some (value1 d)
              ∧ e !! basename file2 = Some (value2 d)
              ∧ dom e = {[ "key"; basename file1; basename file2 ]}.
Proof.
  intros Hb Hk1 Hk2 Hrun.
  destruct (compare_json_returns _ _ _ _ _ _ Hrun)
    as (text1 & text2 & data1 & data2 & c & H1 & L1 & H2 & L2 & Hc & ->).
  exists text1, text2, data1, data2, c.
  do 5 (split; [done|]).
  set (b1 := basename file1) in *. set (b2 := basename file2) in *.
  destruct (only_in_fresh b1) as [Hd1 Hi1].
  destruct (only_in_fresh b2) as [Hd2 Hi2].
  assert ("only_in_" +:+ b1 ≠ "only_in_" +:+ b2) as Hne
    by (by intros ?%only_in_inj).
  unfold report_dict. split; [|split; [|split; [|split]]].
  - rewrite !dom_insert_L, dom_empty_L. apply set_eq. intros k.
    rewrite !elem_of_union, !elem_of_singleton, elem_of_empty. tauto.
  - rewrite !lookup_insert_ne by done. apply lookup_insert_eq.
  - rewrite !lookup_insert_ne by done. apply lookup_insert_eq.
  - apply lookup_insert_eq.
  - eexists. split; [|split].
    + rewrite lookup_insert_ne by done. apply lookup_insert_eq.
    + by rewrite length_fmap.
    + intros i d Hi. exists (diff_dict b1 b2 d).
      split; [by rewrite list_lookup_fmap, Hi|].
      unfold diff_dict. split; [|split; [|split]].
      * rewrite !lookup_insert_ne by done. apply lookup_insert_eq.
      * rewrite lookup_insert_ne by done. apply lookup_insert_eq.
      * apply lookup_insert_eq.
      * rewrite !dom_insert_L, dom_empty_L. apply set_eq. intros k.
        rewrite !elem_of_union, !elem_of_singleton, elem_of_empty. tauto.
Qed.

Lemma report_shape_witness :
  ∃ r w',
    compare_json toy_loads "old/f.json" "new" (
      World (<["new" := File "2"]> (fs toy_world)) [] [] [])
    = (Return r, w')
    ∧ dom r = {[ "only_in_" +:+ basename "old/f.json";
                 "only_in_" +:+ basename "new";
                 "differing_values"; "in_both_identical" ]}.
Proof.
  set (w := World (<["new" := File "2"]> (fs toy_world)) [] [] []).
  set (r := report_dict "f.json" "new"
              (Comparison [] [] [Diff "" (SInt 1) (SInt 2)] [])).
  set (w' := World (fs w) [] []
               [EvIsFile "old/f.json"; EvIsFile "new";
                EvOpenRead "old/f.json"; EvLoad "1";
                EvOpenRead "new"; EvLoad "2"]).
  assert (compare_json toy_loads "old/f.json" "new" w = (Return r, w'))
    as Hrun by (vm_compute; reflexivity).
  exists r, w'. split; [exact Hrun|].
  destruct (report_shape toy_loads "old/f.json" "new" w w' r)
    as (? & ? & ? & ? & c & _ & _ & _ & _ & _ & Hdom & _);
    [discriminate|discriminate|discriminate|exact Hrun|].
  exact Hdom.
Defined.

(** X14: when the basename of one of the files is ["key"], the entries of
    [differing_values] do not hold the path: their ["key"] field holds the
    value of that file (of file B when both are named so). *)
Theorem key_named_file_hides_path (loads : string → option json)
    (file1 file2 : string) (w w' : world) (r : gmap string field) :
  basename file1 = "key" ∨ basename file2 = "key" →
  compare_json loads file1 file2 w = (Return r, w') →
  ∃ text1 text2 data1 data2 c entries,
    fs w !! file1 = Some (File text1) ∧ loads text1 = Some data1
    ∧ fs w !! file2 = Some (File text2) ∧ loads text2 = Some data2
    ∧ compare_docs data1 data2 = Some c
    ∧ r !! "differing_values" = Some (Diffs entries)
    ∧ length entries = length (diffs c)
    ∧ ∀ i d, diffs c !! i = Some d →
        ∃ e, entries !! i = Some e
          ∧ e !! "key"
            = Some (if decide (basename file2 = "key")
                    then value2 d else value1 d).
Proof.
  intros Hkey Hrun.
  destruct (compare_json_returns _ _ _ _ _ _ Hrun)
    as (text1 & text2 & data1 & data2 & c & H1 & L1 & H2 & L2 & Hc & ->).
  exists text1, text2, data1, data2, c. eexists.
  do 5 (split; [done|]).
  destruct (only_in_fresh (basename file2)) as [Hd2 _].
  unfold report_dict. split; [|split].
  - rewrite lookup_insert_ne by done. apply lookup_insert_eq.
  - by rewrite length_fmap.
  - intros i d Hi. eexists. split; [by rewrite list_lookup_fmap, Hi|].
    unfold diff_dict. case_decide as Hk2.
    + rewrite Hk2. apply lookup_insert_eq.
    + destruct Hkey as [Hk1|?]; [|done].
      rewrite lookup_insert_ne by done. rewrite Hk1. apply lookup_insert_eq.
Qed.

Lemma key_named_file_hides_path_witness :
  (basename "old/f.json" = "key" ∨ basename "dir/key" = "key")
  ∧ ∃ r w',
      compare_json toy_loads "old/f.json" "dir/key"
        (World (<["dir/key" := File "2"]> (fs toy_world)) [] [] [])
      = (Return r, w')
      ∧ ∃ entries, r !! "differing_values" = Some (Diffs entries).
Proof.
  split; [right; reflexivity|].
  set (w := World (<["dir/key" := File "2"]> (fs toy_world)) [] [] []).
  set (r := report_dict "f.json" "key"
              (Comparison [] [] [Diff "" (SInt 1) (SInt 2)] [])).
  set (w' := World (fs w) [] []
               [EvIsFile "old/f.json"; EvIsFile "dir/key";
                EvOpenRead "old/f.json"; EvLoad "1";
                EvOpenRead "dir/key"; EvLoad "2"]).
  assert (compare_json toy_loads "old/f.json" "dir/key" w = (Return r, w'))
    as Hrun by (vm_compute; reflexivity).
  exists r, w'. split; [exact Hrun|].
  destruct (key_named_file_hides_path toy_loads "old/f.json" "dir/key"
              w w' r (or_intror eq_refl) Hrun)
    as (? & ? & ? & ? & ? & entries & _ & _ & _ & _ & _ & Hlook & _).
  by exists entries.
Defined.

(** ** Growing a document *)

Lemma flatten_list_items pk sep l i items :
  flatten_list pk sep i l items = flatten_list pk sep i l ∅ ∪ items.
Proof.
  assert (Forall (λ v, ∀ pk', flatten_json v pk' sep
                              = assign_all (leaves v pk' sep)) l) as H.
  { apply Forall_forall. intros v _ pk'. apply flatten_json_leaves. }
  rewrite !(flatten_list_leaves _ _ _ H). by rewrite (right_id_L ∅ (∪)).
Qed.

Lemma only1_nil_of_subseteq (flat1 flat2 : gmap string scalar) :
  dom flat1 ⊆ dom flat2 →
  ∃ c, compare_flat flat1 flat2 = Some c ∧ only1 c = [].
Proof.
  intros Hsub. eexists. split; [apply compare_flat_spec|]. cbn zeta. simpl.
  apply sorted_nil_iff, set_eq. intros k.
  rewrite elem_of_difference, elem_of_empty.
  split; [|done]. intros [H1 H2]. by apply H2, Hsub.
Qed.

(** X15: appending elements to a sequence, or members to a mapping, never
    gives a path found only in the old document: compared with the grown
    document, the old one has an empty only-in list. *)
Theorem grown_document_only_adds (l l' : list json)
    (kvs kvs' : list (string * json)) :
  (∃ c, compare_docs (JList l) (JList (l ++ l')) = Some c ∧ only1 c = [])
  ∧ (∃ c, compare_docs (JDict kvs) (JDict (kvs ++ kvs')) = Some c
          ∧ only1 c = []).
Proof.
  split; apply only1_nil_of_subseteq.
  - rewrite !flatten_json_list, flatten_list_app.
    rewrite (flatten_list_items _ _ l' _ (flatten_list _ _ 0 l ∅)).
    rewrite dom_union_L. intros k Hk. apply elem_of_union. by right.
  - rewrite !flatten_json_dict, flatten_dict_app.
    rewrite (flatten_dict_items _ _ kvs' (flatten_dict _ _ kvs ∅)).
    rewrite dom_union_L. intros k Hk. apply elem_of_union. by right.
Qed.
